(** * Hexachess: the board, its move generator and the material evaluation

    A shallow embedding of [Source/Hexachess/Types/MoveResult.h] (classes
    [Cell] and [Board]) and of the move selection of
    [Source/Hexachess/Actors/ChessGod.cpp].

    - [int32] values are integers of [Z]; every arithmetic operation of the
      source is followed by its 32-bit two's-complement wrap-around.
    - [std::map<int32, Cell*>] is a [gmap Z Cell].  Every stored pointer is
      the result of a [new Cell], so a stored cell is never null and no two
      entries share a cell; a write through the pointer is an [alter] of the
      entry.  Range-based [for] loops visit the entries in ascending key
      order ([map_keys]).
    - [in_board[key]] on an absent key default-inserts a null pointer; the
      source dereferences the result at once, which is undefined behaviour.
      Such a dereference is the outcome [Fault] ([deref]).  Where the source
      tests [is_valid_position(in_board, key)] before it reads
      [in_board[key]], test and read are one [match] on [in_board !! key].
    - A method reads [this->board_map] in some places and its argument
      [in_board] in others; the embedding passes both, as [self] and
      [in_board].
    - Loops whose termination is not structural carry fuel; running out of
      it is the outcome [OutOfFuel]. *)

From Stdlib Require Import ZArith Lia.
From stdpp Require Import base option list sorting gmap fin_map_dom.

Local Open Scope Z_scope.

(** ** 32-bit signed integers *)

Module Int32.

Definition wrap (z : Z) : Z := (z + 2 ^ 31) mod 2 ^ 32 - 2 ^ 31.

Definition add (a b : Z) : Z := wrap (a + b).
Definition sub (a b : Z) : Z := wrap (a - b).
Definition shl (a n : Z) : Z := wrap (Z.shiftl a n).
(* [>>] on a signed operand is the arithmetic shift. *)
Definition shr (a n : Z) : Z := Z.shiftr a n.
(* [%] truncates towards zero. *)
Definition rem (a b : Z) : Z := Z.rem a b.

End Int32.

(** ** Outcomes of a call *)

Inductive outcome (A : Type) : Type :=
  | Ok (a : A)
  | Fault
  | OutOfFuel.

Arguments Ok {A} a.
Arguments Fault {A}.
Arguments OutOfFuel {A}.

#[global] Instance outcome_ret : MRet outcome := fun A a => Ok a.
#[global] Instance outcome_bind : MBind outcome := fun A B f m =>
  match m with
  | Ok a => f a
  | Fault => Fault
  | OutOfFuel => OutOfFuel
  end.

Definition returned {A} (r : outcome A) : bool :=
  match r with Ok _ => true | _ => false end.

(** ** struct Position, class Cell *)

Record Position : Type := mkPosition { pos_x : Z; pos_y : Z }.

Inductive PieceType : Type := none | pawn | knight | bishop | rook | queen | king.
Inductive PieceColor : Type := absent | white | black.

#[global] Instance PieceType_eq_dec : EqDecision PieceType.
Proof. solve_decision. Defined.
#[global] Instance PieceColor_eq_dec : EqDecision PieceColor.
Proof. solve_decision. Defined.

Record Cell : Type := mkCell { piece : PieceType; piece_color : PieceColor }.

#[global] Instance Cell_eq_dec : EqDecision Cell.
Proof. solve_decision. Defined.

Module CellOps.

(* [Cell()] *)
Definition new : Cell := mkCell none absent.

Definition set_piece (c : Cell) (pt : PieceType) (pc : PieceColor) : Cell :=
  mkCell pt pc.

Definition remove_piece (c : Cell) : Cell := mkCell none absent.

Definition has_piece (c : Cell) : bool :=
  negb (bool_decide (piece c = none)).

Definition has_piece_of_same_color (c cell : Cell) : bool :=
  let other_color := piece_color cell in
  negb (bool_decide (piece c = none))
  && negb (bool_decide (piece_color c = absent))
  && negb (bool_decide (other_color = absent))
  && bool_decide (piece_color c = other_color).

Definition has_piece_of_opposite_color (c cell : Cell) : bool :=
  let other_color := piece_color cell in
  negb (bool_decide (piece c = none))
  && negb (bool_decide (piece_color c = absent))
  && negb (bool_decide (other_color = absent))
  && negb (bool_decide (piece_color c = other_color)).

Definition get_opposite_color (c : Cell) : PieceColor :=
  match piece_color c with
  | white => black
  | black => white
  | absent => absent
  end.

End CellOps.

(** ** class Board *)

Abbreviation BoardMap := (gmap Z Cell).

Module Board.

(** *** Constants and the coordinate system *)

Definition median : Z := 5.
Definition max : Z := 10.
Definition step_x : Z := Int32.shl 1 8.

Definition white_pawn_cell_keys : list Z :=
  [256; 513; 770; 1027; 1284; 1539; 1794; 2049; 2304].
Definition black_pawn_cell_keys : list Z :=
  [262; 518; 774; 1030; 1286; 1542; 1798; 2054; 2310].

(* [piece_values[pt]]: [operator[]] on the value table default-inserts 0
   for a type without an entry ([none]). *)
Definition piece_values (pt : PieceType) : Z :=
  match pt with
  | pawn => 1
  | knight => 3
  | bishop => 3
  | rook => 5
  | queen => 9
  | king => 100
  | none => 0
  end.

Definition to_position_key (x y : Z) : Z := Int32.add (Int32.shl x 8) y.

Definition to_position_key_pos (pos : Position) : Z :=
  to_position_key (pos_x pos) (pos_y pos).

Definition get_x (key : Z) : Z := Int32.shr key 8.
Definition get_y (key : Z) : Z := Z.land key 255.

Definition to_position (key : Z) : Position :=
  mkPosition (get_x key) (get_y key).

Definition move_vertically_up (key : Z) : Z := Int32.add key 1.
Definition move_vertically_down (key : Z) : Z := Int32.sub key 1.

Definition move_horizontally_top_right (key : Z) : Z :=
  if get_x key <? median then Int32.add (Int32.add key step_x) 1
  else Int32.add key step_x.

Definition move_horizontally_top_left (key : Z) : Z :=
  if median <? get_x key then Int32.add (Int32.sub key step_x) 1
  else Int32.sub key step_x.

Definition move_horizontally_bottom_right (key : Z) : Z :=
  if get_x key <? median then Int32.add key step_x
  else Int32.sub (Int32.add key step_x) 1.

Definition move_horizontally_bottom_left (key : Z) : Z :=
  if median <? get_x key then Int32.sub key step_x
  else Int32.sub (Int32.sub key step_x) 1.

Definition move_diagonally_top_right (key : Z) : Z :=
  if get_x key <? median then Int32.add (Int32.add key step_x) 2
  else Int32.add (Int32.add key step_x) 1.

Definition move_diagonally_top_left (key : Z) : Z :=
  if median <? get_x key then Int32.add (Int32.sub key step_x) 2
  else Int32.add (Int32.sub key step_x) 1.

Definition move_diagonally_bottom_right (key : Z) : Z :=
  if get_x key <? median then Int32.sub (Int32.add key step_x) 1
  else Int32.sub (Int32.add key step_x) 2.

Definition move_diagonally_bottom_left (key : Z) : Z :=
  if median <? get_x key then Int32.sub (Int32.sub key step_x) 1
  else Int32.sub (Int32.sub key step_x) 2.

(* [step_x*2] *)
Definition step_x2 : Z := Int32.wrap (step_x * 2).

Definition move_diagonally_right (key : Z) : Z :=
  let x := get_x key in
  if Int32.rem x 2 =? 0 then
    if x =? Int32.sub median 1 then Int32.add key step_x2
    else if x <? median then Int32.add (Int32.add key step_x2) 1
    else Int32.sub (Int32.add key step_x2) 1
  else
    if x <? median then Int32.add (Int32.add key step_x2) 1
    else Int32.sub (Int32.add key step_x2) 1.

Definition move_diagonally_left (key : Z) : Z :=
  let x := get_x key in
  if Int32.rem x 2 =? 0 then
    if x =? Int32.add median 1 then Int32.sub key step_x2
    else if x <? median then Int32.sub (Int32.sub key step_x2) 1
    else Int32.add (Int32.sub key step_x2) 1
  else
    if x <=? median then Int32.sub (Int32.sub key step_x2) 1
    else Int32.add (Int32.sub key step_x2) 1.

(** *** The board map *)

(* [in_board.find(key) != in_board.end()] *)
Definition is_valid_position (in_board : BoardMap) (key : Z) : bool :=
  bool_decide (is_Some (in_board !! key)).

Definition is_valid_position_pos (in_board : BoardMap) (pos : Position) : bool :=
  is_valid_position in_board (to_position_key_pos pos).

(* [in_board[key]->...] with no validity test before it. *)
Definition deref (in_board : BoardMap) (key : Z) : outcome Cell :=
  match in_board !! key with
  | Some cell => Ok cell
  | None => Fault
  end.

(* The keys of a map in the order a range-based [for] visits them. *)
Definition map_keys (in_board : BoardMap) : list Z :=
  merge_sort Z.le (elements (dom in_board)).

Definition entries (in_board : BoardMap) : list (Z * Cell) :=
  omap (fun key => pair key <$> in_board !! key) (map_keys in_board).

Fixpoint int_range (lo : Z) (n : nat) : list Z :=
  match n with
  | O => []
  | S n' => lo :: int_range (lo + 1) n'
  end.

Definition column_y_max (x : Z) : Z :=
  let y_max := Int32.add median x in
  if max <? y_max then Int32.sub max (Int32.rem y_max max) else y_max.

(* [Board::Board()]: [for x in 0..max], [for y in 0..y_max]. *)
Definition new : BoardMap :=
  foldl (fun board_map x =>
           foldl (fun board_map y =>
                    let pos := to_position_key x y in
                    <[pos := CellOps.new]> board_map)
                 board_map (int_range 0 (Z.to_nat (column_y_max x + 1))))
        ∅ (int_range 0 (Z.to_nat (max + 1))).

(* A copy-constructed [new Cell] for every entry: fresh cells with the
   same fields. *)
Definition copy_board_map (in_board : BoardMap) : BoardMap :=
  (fun cell => mkCell (piece cell) (piece_color cell)) <$> in_board.

(** *** Mutators *)

(* The returned flag is [false] on both paths, as in the source. *)
Definition set_piece_in (in_board : BoardMap) (pos : Position)
    (pt : PieceType) (pc : PieceColor) : BoardMap * bool :=
  let key := to_position_key_pos pos in
  if negb (is_valid_position in_board key) then (in_board, false)
  else (alter (fun c => CellOps.set_piece c pt pc) key in_board, false).

(* [is_valid_position(in_board, sp) && is_valid_position(in_board, goal)]
   guards the reads of [in_board[sp]]. *)
Definition move_piece_in (in_board : BoardMap) (start goal : Position)
    : BoardMap * bool :=
  let sp := to_position_key_pos start in
  match in_board !! sp with
  | Some src =>
      if is_valid_position_pos in_board goal then
        let pt := piece src in
        let pc := piece_color src in
        let in_board := alter CellOps.remove_piece sp in_board in
        let in_board := fst (set_piece_in in_board goal pt pc) in
        (in_board, true)
      else (in_board, true)
  | None => (in_board, true)
  end.

Definition set_piece (self : BoardMap) (pos : Position)
    (pt : PieceType) (pc : PieceColor) : BoardMap * bool :=
  set_piece_in self pos pt pc.

Definition move_piece (self : BoardMap) (start goal : Position)
    : BoardMap * bool :=
  move_piece_in self start goal.

(** *** Piece lists *)

Definition get_piece_keys_in (in_board : BoardMap) (pc : PieceColor) : list Z :=
  foldl (fun l '(key, cell) =>
           if bool_decide (piece_color cell = pc) then key :: l else l)
        [] (entries in_board).

Definition get_piece_keys (self : BoardMap) (pc : PieceColor) : list Z :=
  get_piece_keys_in self pc.

(** *** Move generation *)

Definition add_if_valid (in_board : BoardMap) (l : list Z) (key : Z)
    (cell : Cell) (can_take : bool) : list Z :=
  match in_board !! key with
  | Some c =>
      if CellOps.has_piece c then
        if CellOps.has_piece_of_opposite_color c cell && can_take
        then key :: l else l
      else key :: l
  | None => l
  end.

Definition add_pawn_take_if_valid (in_board : BoardMap) (l : list Z)
    (key : Z) (cell : Cell) : list Z :=
  match in_board !! key with
  | Some c => if CellOps.has_piece_of_opposite_color c cell then key :: l else l
  | None => l
  end.

Definition is_initial_pawn_cell (key : Z) (cell : Cell) : bool :=
  match piece_color cell with
  | white => bool_decide (key ∈ white_pawn_cell_keys)
  | black => bool_decide (key ∈ black_pawn_cell_keys)
  | absent => false
  end.

(* The [switch] of [add_pawn_moves]: (fn_move, fn_take_1, fn_take_2). *)
Definition pawn_directions (pc : PieceColor)
    : option ((Z -> Z) * (Z -> Z) * (Z -> Z)) :=
  match pc with
  | white => Some (move_vertically_up,
                   move_horizontally_top_left, move_horizontally_top_right)
  | black => Some (move_vertically_down,
                   move_horizontally_bottom_left, move_horizontally_bottom_right)
  | absent => None
  end.

Definition add_pawn_moves (in_board : BoardMap) (l : list Z) (key : Z)
    (cell : Cell) : list Z :=
  match pawn_directions (piece_color cell) with
  | None => l
  | Some (fn_move, fn_take_1, fn_take_2) =>
      let move := fn_move key in
      let l :=
        match in_board !! move with
        | Some c =>
            let l := add_if_valid in_board l move cell false in
            if negb (CellOps.has_piece c) && is_initial_pawn_cell key cell
            then add_if_valid in_board l (fn_move move) cell false
            else l
        | None => l
        end in
      let take := fn_take_1 key in
      let l := add_pawn_take_if_valid in_board l take cell in
      let take := fn_take_2 key in
      add_pawn_take_if_valid in_board l take cell
  end.

(* The [while] loop of [add_valid_moves] for one direction. *)
Fixpoint slide (fuel : nat) (in_board : BoardMap) (fn : Z -> Z) (cell : Cell)
    (current_pos : Z) (l : list Z) : outcome (list Z) :=
  match fuel with
  | O => OutOfFuel
  | S fuel' =>
      match in_board !! current_pos with
      | None => Ok l
      | Some c =>
          if CellOps.has_piece c then
            if CellOps.has_piece_of_same_color c cell then Ok l
            else Ok (current_pos :: l)
          else slide fuel' in_board fn cell (fn current_pos) (current_pos :: l)
      end
  end.

(* Every turn of the loop but the last stands on a fresh key of the map, so
   one turn more than the map has entries is enough ([slide_returns]). *)
Definition slide_fuel (in_board : BoardMap) : nat := S (size in_board).

Fixpoint add_valid_moves (in_board : BoardMap) (l : list Z) (key : Z)
    (fns : list (Z -> Z)) (cell : Cell) : outcome (list Z) :=
  match fns with
  | [] => Ok l
  | fn :: fns' =>
      l ← slide (slide_fuel in_board) in_board fn cell (fn key) l;
      add_valid_moves in_board l key fns' cell
  end.

Definition bishop_fns : list (Z -> Z) :=
  [ move_diagonally_top_right; move_diagonally_top_left;
    move_diagonally_bottom_right; move_diagonally_bottom_left;
    move_diagonally_right; move_diagonally_left ].

Definition rook_fns : list (Z -> Z) :=
  [ move_horizontally_top_right; move_horizontally_top_left;
    move_horizontally_bottom_right; move_horizontally_bottom_left;
    move_vertically_up; move_vertically_down ].

Definition add_bishop_moves (in_board : BoardMap) (l : list Z) (key : Z)
    (cell : Cell) : outcome (list Z) :=
  add_valid_moves in_board l key bishop_fns cell.

Definition add_rook_moves (in_board : BoardMap) (l : list Z) (key : Z)
    (cell : Cell) : outcome (list Z) :=
  add_valid_moves in_board l key rook_fns cell.

Definition add_queen_moves (in_board : BoardMap) (l : list Z) (key : Z)
    (cell : Cell) : outcome (list Z) :=
  l ← add_bishop_moves in_board l key cell;
  add_rook_moves in_board l key cell.

Definition add_knight_moves (in_board : BoardMap) (l : list Z) (key : Z)
    (cell : Cell) : list Z :=
  let pos := move_vertically_up (move_vertically_up key) in
  let l := add_if_valid in_board l (move_horizontally_top_right pos) cell true in
  let l := add_if_valid in_board l (move_horizontally_top_left pos) cell true in
  let pos := move_vertically_down (move_vertically_down key) in
  let l := add_if_valid in_board l (move_horizontally_bottom_right pos) cell true in
  let l := add_if_valid in_board l (move_horizontally_bottom_left pos) cell true in
  let pos := move_horizontally_top_right (move_horizontally_top_right key) in
  let l := add_if_valid in_board l (move_vertically_up pos) cell true in
  let l := add_if_valid in_board l (move_horizontally_bottom_right pos) cell true in
  let pos := move_horizontally_bottom_right (move_horizontally_bottom_right key) in
  let l := add_if_valid in_board l (move_vertically_down pos) cell true in
  let l := add_if_valid in_board l (move_horizontally_top_right pos) cell true in
  let pos := move_horizontally_bottom_left (move_horizontally_bottom_left key) in
  let l := add_if_valid in_board l (move_vertically_down pos) cell true in
  let l := add_if_valid in_board l (move_horizontally_top_left pos) cell true in
  let pos := move_horizontally_top_left (move_horizontally_top_left key) in
  let l := add_if_valid in_board l (move_vertically_up pos) cell true in
  add_if_valid in_board l (move_horizontally_bottom_left pos) cell true.

Definition king_fns : list (Z -> Z) :=
  [ move_vertically_up; move_vertically_down;
    move_horizontally_top_right; move_horizontally_top_left;
    move_horizontally_bottom_right; move_horizontally_bottom_left;
    move_diagonally_top_right; move_diagonally_top_left;
    move_diagonally_bottom_right; move_diagonally_bottom_left;
    move_diagonally_right; move_diagonally_left ].

Definition add_king_moves (in_board : BoardMap) (l : list Z) (key : Z)
    (cell : Cell) : list Z :=
  foldl (fun l fn => add_if_valid in_board l (fn key) cell true) l king_fns.

(* The [switch] on the piece type in [get_valid_moves]. *)
Definition piece_moves (in_board : BoardMap) (key : Z) (cell : Cell)
    : outcome (list Z) :=
  let l := [] in
  match piece cell with
  | none => Ok l
  | pawn => Ok (add_pawn_moves in_board l key cell)
  | bishop => add_bishop_moves in_board l key cell
  | knight => Ok (add_knight_moves in_board l key cell)
  | rook => add_rook_moves in_board l key cell
  | queen => add_queen_moves in_board l key cell
  | king => Ok (add_king_moves in_board l key cell)
  end.

(* The search for [king_key]; every [in_board[piece_key]] is unguarded. *)
Fixpoint find_king_key (in_board : BoardMap) (color_pieces : list Z)
    : outcome Z :=
  match color_pieces with
  | [] => Ok (-1)
  | piece_key :: rest =>
      c ← deref in_board piece_key;
      if bool_decide (piece c = king) then Ok piece_key
      else find_king_key in_board rest
  end.

(* [get_valid_moves(in_board, key, skip_filter)] up to its first [return]:
   the cell, the candidate list [l] and [king_key].  The piece list is
   taken from [this->board_map], whatever [in_board] is. *)
Definition candidate_moves (self in_board : BoardMap) (key : Z)
    : outcome (Cell * list Z * Z) :=
  cell ← deref in_board key;
  l ← piece_moves in_board key cell;
  let color_pieces := get_piece_keys self (piece_color cell) in
  king_key ← find_king_key in_board color_pieces;
  Ok (cell, l, king_key).

(* [get_valid_moves(in_board, key, true)]. *)
Definition get_valid_moves_skip (self in_board : BoardMap) (key : Z)
    : outcome (list Z) :=
  '(_, l, _) ← candidate_moves self in_board key;
  Ok l.

Fixpoint get_all_piece_move_keys_loop (moves_of : Z -> outcome (list Z))
    (all_piece_keys : list Z) (all_moves : list Z) : outcome (list Z) :=
  match all_piece_keys with
  | [] => Ok all_moves
  | key :: rest =>
      moves ← moves_of key;
      get_all_piece_move_keys_loop moves_of rest (all_moves ++ moves)
  end.

(* [get_all_piece_move_keys(in_board, pc, true)]. *)
Definition get_all_piece_move_keys_skip (self in_board : BoardMap)
    (pc : PieceColor) : outcome (list Z) :=
  get_all_piece_move_keys_loop (get_valid_moves_skip self in_board)
    (get_piece_keys_in in_board pc) [].

Definition can_be_captured_in (self in_board : BoardMap) (key : Z)
    : outcome bool :=
  c ← deref in_board key;
  let pc := CellOps.get_opposite_color c in
  all_moves ← get_all_piece_move_keys_skip self in_board pc;
  Ok (bool_decide (key ∈ all_moves)).

(* The filtering loop of [get_valid_moves]; the copy is taken from
   [this->board_map]. *)
Fixpoint filter_moves (self : BoardMap) (key : Z) (cell : Cell)
    (king_key : Z) (l : list Z) (filtered_list : list Z) : outcome (list Z) :=
  match l with
  | [] => Ok filtered_list
  | k :: rest =>
      let board_copy := copy_board_map self in
      let start := to_position key in
      let goal := to_position k in
      let board_copy := fst (move_piece_in board_copy start goal) in
      let final_king_key :=
        if bool_decide (piece cell = king) then k else king_key in
      captured ← can_be_captured_in self board_copy final_king_key;
      filter_moves self key cell king_key rest
        (if negb captured then k :: filtered_list else filtered_list)
  end.

Definition get_valid_moves_in (self in_board : BoardMap) (key : Z)
    (skip_filter : bool) : outcome (list Z) :=
  '(cell, l, king_key) ← candidate_moves self in_board key;
  if skip_filter || (king_key =? -1) then Ok l
  else filter_moves self key cell king_key l [].

Definition get_valid_moves (self : BoardMap) (key : Z) : outcome (list Z) :=
  get_valid_moves_in self self key false.

Definition get_valid_moves_pos (self : BoardMap) (pos : Position)
    : outcome (list Position) :=
  let key := to_position_key_pos pos in
  moves ← get_valid_moves self key;
  Ok (foldl (fun pos_list k => to_position k :: pos_list) [] moves).

Definition get_all_piece_move_keys_in (self in_board : BoardMap)
    (pc : PieceColor) (skip_filter : bool) : outcome (list Z) :=
  get_all_piece_move_keys_loop
    (fun key => get_valid_moves_in self in_board key skip_filter)
    (get_piece_keys_in in_board pc) [].

Definition get_all_piece_move_keys (self : BoardMap) (pc : PieceColor)
    (skip_filter : bool) : outcome (list Z) :=
  get_all_piece_move_keys_in self self pc skip_filter.

Definition are_there_valid_moves (self : BoardMap) (pc : PieceColor)
    : outcome bool :=
  all_moves ← get_all_piece_move_keys_in self self pc false;
  Ok (bool_decide (0 < length all_moves)%nat).

Definition can_be_captured (self : BoardMap) (key : Z) : outcome bool :=
  can_be_captured_in self self key.

Definition can_be_captured_pos (self : BoardMap) (pos : Position)
    : outcome bool :=
  can_be_captured_in self self (to_position_key_pos pos).

(** *** Evaluation *)

(* One of the two loops of [evaluate]: [on_king] is the update for a king
   that can be captured, [on_other] the update for any other piece. *)
Fixpoint evaluate_loop (self in_board : BoardMap)
    (on_king on_other : Z -> Z -> Z) (pieces : list Z) (score : Z)
    : outcome Z :=
  match pieces with
  | [] => Ok score
  | piece_key :: rest =>
      c ← deref in_board piece_key;
      if bool_decide (piece c = king) then
        captured ← can_be_captured_in self in_board piece_key;
        evaluate_loop self in_board on_king on_other rest
          (if (captured : bool) then on_king score (piece_values king)
           else score)
      else
        evaluate_loop self in_board on_king on_other rest
          (on_other score (piece_values (piece c)))
  end.

Definition evaluate_in (self in_board : BoardMap) : outcome Z :=
  let score := 0 in
  let white_pieces := get_piece_keys_in in_board white in
  let black_pieces := get_piece_keys_in in_board black in
  score ← evaluate_loop self in_board Int32.sub Int32.add white_pieces score;
  evaluate_loop self in_board Int32.add Int32.sub black_pieces score.

Definition evaluate (self : BoardMap) : outcome Z := evaluate_in self self.

(** *** Further queries *)

(* [is_valid_position(x, y)], the public overload. *)
Definition is_valid_position_xy (self : BoardMap) (x y : Z) : bool :=
  let pos := to_position_key x y in
  is_valid_position self pos.

(* The loop of [get_possible_move_sources] over [all_moves]. *)
Fixpoint get_possible_move_sources_loop (moves_of : Z -> outcome (list Z))
    (target : Z) (all_moves : list Z) (l : list Z) : outcome (list Z) :=
  match all_moves with
  | [] => Ok l
  | move :: rest =>
      moves ← moves_of move;
      get_possible_move_sources_loop moves_of target rest
        (if bool_decide (target ∈ moves) then move :: l else l)
  end.

Definition get_possible_move_sources_in (self in_board : BoardMap)
    (target : Z) (pc : PieceColor) : outcome (list Z) :=
  all_moves ← get_all_piece_move_keys_in self in_board pc true;
  get_possible_move_sources_loop
    (fun move => get_valid_moves_in self in_board move true)
    target all_moves [].

Definition get_possible_move_sources (self : BoardMap) (target : Z)
    (pc : PieceColor) : outcome (list Z) :=
  get_possible_move_sources_in self self target pc.

End Board.

(** ** class AChessGod: the calls forwarded to the board and the AI moves *)

Record FIntPoint : Type := mkFIntPoint { X : Z; Y : Z }.

Inductive EAIType : Type := Random | Copycat | MinMax.

(* [EPieceType] and [FPieceInfo] are declared in Types/PieceInfo.h, which is
   not among the sources.  [EPieceType] has the six values that the switch
   of [RegisterPiece] names; [EOther] stands for any further value, which
   the switch sends to its [default].  [FPieceInfo] has the fields that
   [RegisterPiece] reads. *)
Inductive EPieceType : Type :=
  EPawn | EKnight | EBishop | ERook | EQueen | EKing | EOther.

Record FPieceInfo : Type :=
  mkFPieceInfo { info_Type : EPieceType; info_X : Z; info_Y : Z; info_TeamID : Z }.

Module ChessGod.

Definition player_color (IsWhitePlayer : bool) : PieceColor :=
  if IsWhitePlayer then white else black.

Definition GetMovesForCell (ActiveBoard : BoardMap) (InPosition : FIntPoint)
    : outcome (list FIntPoint) :=
  let PiecePosition := mkPosition (X InPosition) (Y InPosition) in
  Moves ← Board.get_valid_moves_pos ActiveBoard PiecePosition;
  Ok (map (fun Move => mkFIntPoint (pos_x Move) (pos_y Move)) Moves).

Definition MovePiece (ActiveBoard : BoardMap) (From To : FIntPoint) : BoardMap :=
  let FromPosition := mkPosition (X From) (Y From) in
  let ToPosition := mkPosition (X To) (Y To) in
  fst (Board.move_piece ActiveBoard FromPosition ToPosition).

Definition IsCellUnderAttack (ActiveBoard : BoardMap) (InPosition : FIntPoint)
    : outcome bool :=
  Board.can_be_captured_pos ActiveBoard (mkPosition (X InPosition) (Y InPosition)).

Section RandomAI.

(* [FMath::RandRange(Min, Max)]: the value of the n-th draw. *)
Variable RandRange : nat -> Z -> Z -> Z.

(* [*std::next(l.begin(), Index)]; stepping outside the list is undefined
   behaviour. *)
Definition list_at (l : list Z) (Index : Z) : outcome Z :=
  if Index <? 0 then Fault
  else match l !! Z.to_nat Index with
       | Some v => Ok v
       | None => Fault
       end.

(* The [while (!foundValidMove)] loop; [draws] counts the calls of
   [RandRange] so far.  The broadcast of the chosen move to the listeners of
   [OnAIFinishedCalculatingMove] is outside the model. *)
Fixpoint random_move_loop (fuel : nat) (draws : nat) (ActiveBoard : BoardMap)
    (PieceKeys : list Z) : outcome (list FIntPoint) :=
  match fuel with
  | O => OutOfFuel
  | S fuel' =>
      let RandomIndex :=
        RandRange draws 0 (Int32.sub (Z.of_nat (length PieceKeys)) 1) in
      RandomPieceKey ← list_at PieceKeys RandomIndex;
      PieceMoves ← Board.get_valid_moves ActiveBoard RandomPieceKey;
      if bool_decide (0 < length PieceMoves)%nat then
        let RandomMoveIndex :=
          RandRange (S draws) 0 (Int32.sub (Z.of_nat (length PieceMoves)) 1) in
        RandomMoveKey ← list_at PieceMoves RandomMoveIndex;
        let FromPosition := Board.to_position RandomPieceKey in
        let ToPosition := Board.to_position RandomMoveKey in
        Ok [ mkFIntPoint (pos_x FromPosition) (pos_y FromPosition);
             mkFIntPoint (pos_x ToPosition) (pos_y ToPosition) ]
      else random_move_loop fuel' (S draws) ActiveBoard PieceKeys
  end.

Definition CalculateRandomAIMove (fuel : nat) (ActiveBoard : BoardMap)
    (IsWhiteAI : bool) : outcome (list FIntPoint) :=
  let Result := [] in
  let PieceKeys := Board.get_piece_keys ActiveBoard (player_color IsWhiteAI) in
  if bool_decide (length PieceKeys = 0%nat) then Ok Result
  else random_move_loop fuel 0 ActiveBoard PieceKeys.

Definition CalculateCopycatAIMove (IsWhiteAI : bool) : outcome (list FIntPoint) :=
  Ok [].

(* [CalculateMinMaxAIMove] hands the search to the minimax component and
   returns its own empty [Result]. *)
Definition CalculateMinMaxAIMove (IsWhiteAI : bool) : outcome (list FIntPoint) :=
  Ok [].

Definition MakeAIMove (fuel : nat) (ActiveBoard : BoardMap) (IsWhiteAI : bool)
    (AIType : EAIType) : outcome (list FIntPoint) :=
  match AIType with
  | Random => CalculateRandomAIMove fuel ActiveBoard IsWhiteAI
  | Copycat => CalculateCopycatAIMove IsWhiteAI
  | MinMax => CalculateMinMaxAIMove IsWhiteAI
  end.

End RandomAI.

(* [StartGame] and [CreateLogicalBoard]: [ActiveBoard = new Board()]. *)
Definition StartGame : BoardMap := Board.new.

(* The lambda of [RegisterPiece] over [PieceInfo.Type]. *)
Definition register_piece_type (Type_ : EPieceType) : PieceType :=
  match Type_ with
  | EPawn => pawn
  | EKnight => knight
  | EBishop => bishop
  | ERook => rook
  | EQueen => queen
  | EKing => king
  | EOther => pawn
  end.

Definition RegisterPiece (ActiveBoard : BoardMap) (PieceInfo : FPieceInfo)
    : BoardMap :=
  let PieceType := register_piece_type (info_Type PieceInfo) in
  let PiecePosition := mkPosition (info_X PieceInfo) (info_Y PieceInfo) in
  fst (Board.set_piece ActiveBoard PiecePosition PieceType
         (if info_TeamID PieceInfo =? 0 then white else black)).

Definition AreThereValidMovesForPlayer (ActiveBoard : BoardMap)
    (IsWhitePlayer : bool) : outcome bool :=
  Board.are_there_valid_moves ActiveBoard (player_color IsWhitePlayer).

Definition GetValidMovesForPlayer (ActiveBoard : BoardMap)
    (IsWhitePlayer : bool) : outcome (list FIntPoint) :=
  MoveKeys ← Board.get_all_piece_move_keys ActiveBoard
               (player_color IsWhitePlayer) false;
  Ok (map (fun Move =>
             let MovePosition := Board.to_position Move in
             mkFIntPoint (pos_x MovePosition) (pos_y MovePosition))
          MoveKeys).

End ChessGod.

(** * The vocabulary of the properties *)

(** ** Boards *)

(* A key lies in the range of the packed coordinates: non-negative, and far
   enough from the 32-bit bounds that a step from it does not wrap. *)
Definition keys_in_range (m : BoardMap) : Prop :=
  map_Forall (fun k _ => 0 <= k < 2 ^ 30) m.

(* A cell carries a color exactly when it carries a piece: the state left by
   [Cell()], [remove_piece] and the placement of a white or black piece. *)
Definition cells_consistent (m : BoardMap) : Prop :=
  map_Forall (fun _ c => piece c = none <-> piece_color c = absent) m.

(* Every board built from the constructor by the two mutators. *)
Inductive reachable : BoardMap -> Prop :=
  | reachable_new : reachable Board.new
  | reachable_set_piece b pos pt pc :
      reachable b -> reachable (Board.set_piece b pos pt pc).1
  | reachable_move_piece b start goal :
      reachable b -> reachable (Board.move_piece b start goal).1.

(* The boards built as [RegisterPiece] and [MovePiece] use the mutators:
   only white or black pieces are placed. *)
Inductive played : BoardMap -> Prop :=
  | played_new : played Board.new
  | played_register b pos pt pc :
      played b -> pt <> none -> pc <> absent ->
      played (Board.set_piece b pos pt pc).1
  | played_move b start goal :
      played b -> played (Board.move_piece b start goal).1.

(** ** Directions, raw moves and targets *)

(* A direction function steps strictly upwards, or strictly downwards, in the
   order of the keys. *)
Definition ascends (m : BoardMap) (fn : Z -> Z) : Prop :=
  forall k, is_Some (m !! k) -> k < fn k.
Definition descends (m : BoardMap) (fn : Z -> Z) : Prop :=
  forall k, is_Some (m !! k) -> fn k < k.

(* The candidates of the piece on [key], as [get_valid_moves] computes them
   before it looks for the king. *)
Definition raw_moves (in_board : BoardMap) (key : Z) : outcome (list Z) :=
  cell ← Board.deref in_board key;
  Board.piece_moves in_board key cell.

(* A generated key is a cell of the board that does not hold a piece of the
   mover's own color. *)
Definition target (m : BoardMap) (cell : Cell) (k : Z) : Prop :=
  exists ck, m !! k = Some ck
             /\ CellOps.has_piece_of_same_color ck cell = false.

(** ** The score as a sum *)

Fixpoint Zsum (l : list Z) : Z :=
  match l with
  | [] => 0
  | z :: l' => z + Zsum l'
  end.

Definition capturable (self : BoardMap) (key : Z) : bool :=
  match Board.can_be_captured self key with
  | Ok b => b
  | _ => false
  end.

(* The update of the white loop for the piece on [key]. *)
Definition piece_delta (m : BoardMap) (key : Z) : Z :=
  match m !! key with
  | Some c =>
      if bool_decide (piece c = king)
      then (if capturable m key then - Board.piece_values king else 0)
      else Board.piece_values (piece c)
  | None => 0
  end.

(* What one cell adds to the score: a piece other than a king counts with its
   value, positively for white and negatively for black; a king counts only
   while it can be captured, with the king value against its own side. *)
Definition contribution (self : BoardMap) (kc : Z * Cell) : Z :=
  let '(key, c) := kc in
  match piece_color c with
  | white =>
      if bool_decide (piece c = king)
      then (if capturable self key then - Board.piece_values king else 0)
      else Board.piece_values (piece c)
  | black =>
      if bool_decide (piece c = king)
      then (if capturable self key then Board.piece_values king else 0)
      else - Board.piece_values (piece c)
  | absent => 0
  end.

(* The sum as the sentence on [evaluate] words it: every piece counts with
   its value, the king with 100, and a king that can be captured counts with
   100 against its side instead. *)
Definition contribution_as_stated (self : BoardMap) (kc : Z * Cell) : Z :=
  let '(key, c) := kc in
  match piece_color c with
  | white =>
      if bool_decide (piece c = king) && capturable self key
      then - Board.piece_values king
      else Board.piece_values (piece c)
  | black =>
      if bool_decide (piece c = king) && capturable self key
      then Board.piece_values king
      else - Board.piece_values (piece c)
  | absent => 0
  end.

(** ** The effect of a move, as stated *)

(** The post-condition that the sentence on [movePiece] states for two valid
    endpoints: the destination holds what the source held, and the source is
    empty. *)
Definition move_piece_as_stated (self : BoardMap) (start goal : Position) : Prop :=
  let after := (Board.move_piece self start goal).1 in
  after !! Board.to_position_key_pos goal = self !! Board.to_position_key_pos start
  /\ after !! Board.to_position_key_pos start = Some (mkCell none absent).

(** ** Swapping the colors *)

Definition swap_color (pc : PieceColor) : PieceColor :=
  match pc with
  | white => black
  | black => white
  | absent => absent
  end.

Definition swap_cell (c : Cell) : Cell :=
  mkCell (piece c) (swap_color (piece_color c)).

(* The same board with the color of every piece exchanged. *)
Definition swap_colors (m : BoardMap) : BoardMap := swap_cell <$> m.

Definition no_pawns (m : BoardMap) : Prop :=
  map_Forall (fun _ c => piece c <> pawn) m.

(* Every king of the board can be captured after the swap of the colors
   exactly when it can be captured before it. *)
Definition kings_agree (m : BoardMap) : Prop :=
  forall k c, m !! k = Some c -> piece c = king ->
              Board.can_be_captured (swap_colors m) k = Board.can_be_captured m k.

(** ** Cells without a color *)

(* No cell without a color holds a piece: the state left by [Cell()],
   [remove_piece] and the placement of white or black pieces. *)
Definition colorless_cells_empty (m : BoardMap) : Prop :=
  map_Forall (fun _ c => piece_color c = absent -> piece c = none) m.

(** ** Positions used below *)

Definition pawn_on_1_1 : BoardMap :=
  (Board.set_piece Board.new (mkPosition 1 1) pawn white).1.

(* A white pawn on its starting key 256 = (1,0), the cells ahead empty. *)
Definition pawn_on_1_0 : BoardMap :=
  (Board.set_piece Board.new (mkPosition 1 0) pawn white).1.

(* A lone white pawn on the top cell of column 0: nothing ahead of it, nothing
   to capture. *)
Definition pawn_on_0_5 : BoardMap :=
  (Board.set_piece Board.new (mkPosition 0 5) pawn white).1.

(* A black rook on (5,8); the cell (5,5) below it is empty and in its reach. *)
Definition rook_on_5_8 : BoardMap :=
  (Board.set_piece Board.new (mkPosition 5 8) rook black).1.

Definition king_on_5_5 : BoardMap :=
  (Board.set_piece Board.new (mkPosition 5 5) king white).1.

(* A white king on (5,5) in check from a black rook on (5,8). *)
Definition king_and_rook : BoardMap :=
  (Board.set_piece king_on_5_5 (mkPosition 5 8) rook black).1.

(* Both kings on the board: the white one on (5,5) in check from a black rook
   on (5,8), the black one on (0,0) out of reach. *)
Definition check_position : BoardMap :=
  (Board.set_piece
     (Board.set_piece king_on_5_5 (mkPosition 5 8) rook black).1
     (mkPosition 0 0) king black).1.

(* A white king on (5,5) with a black pawn on (4,5), which attacks it. *)
Definition king_and_pawn : BoardMap :=
  (Board.set_piece king_on_5_5 (mkPosition 4 5) pawn black).1.

(* A white king on (5,5) with a black pawn on (6,6): the pawn stands next to
   the king and attacks it neither as a black nor as a white pawn. *)
Definition king_and_idle_pawn : BoardMap :=
  (Board.set_piece king_on_5_5 (mkPosition 6 6) pawn black).1.

(* The black rook on (5,8), and the cell (5,5) below it given the color white
   but no piece, as [set_piece(pos, none, white)] leaves it. *)
Definition colored_empty_cell : BoardMap :=
  (Board.set_piece rook_on_5_8 (mkPosition 5 5) none white).1.

(* A rook without a color on (5,8), as [set_piece(pos, rook, absent)] leaves
   it; the cell (5,5) below it is empty and has no color. *)
Definition colorless_rook : BoardMap :=
  (Board.set_piece Board.new (mkPosition 5 8) rook absent).1.

(** ** The twelve directions in coordinates *)

Inductive Direction : Type :=
  | VerticallyUp | VerticallyDown
  | HorizontallyTopRight | HorizontallyTopLeft
  | HorizontallyBottomRight | HorizontallyBottomLeft
  | DiagonallyTopRight | DiagonallyTopLeft
  | DiagonallyBottomRight | DiagonallyBottomLeft
  | DiagonallyRight | DiagonallyLeft.

Definition direction_fn (d : Direction) : Z -> Z :=
  match d with
  | VerticallyUp => Board.move_vertically_up
  | VerticallyDown => Board.move_vertically_down
  | HorizontallyTopRight => Board.move_horizontally_top_right
  | HorizontallyTopLeft => Board.move_horizontally_top_left
  | HorizontallyBottomRight => Board.move_horizontally_bottom_right
  | HorizontallyBottomLeft => Board.move_horizontally_bottom_left
  | DiagonallyTopRight => Board.move_diagonally_top_right
  | DiagonallyTopLeft => Board.move_diagonally_top_left
  | DiagonallyBottomRight => Board.move_diagonally_bottom_right
  | DiagonallyBottomLeft => Board.move_diagonally_bottom_left
  | DiagonallyRight => Board.move_diagonally_right
  | DiagonallyLeft => Board.move_diagonally_left
  end.

Definition opposite (d : Direction) : Direction :=
  match d with
  | VerticallyUp => VerticallyDown
  | VerticallyDown => VerticallyUp
  | HorizontallyTopRight => HorizontallyBottomLeft
  | HorizontallyTopLeft => HorizontallyBottomRight
  | HorizontallyBottomRight => HorizontallyTopLeft
  | HorizontallyBottomLeft => HorizontallyTopRight
  | DiagonallyTopRight => DiagonallyBottomLeft
  | DiagonallyTopLeft => DiagonallyBottomRight
  | DiagonallyBottomRight => DiagonallyTopLeft
  | DiagonallyBottomLeft => DiagonallyTopRight
  | DiagonallyRight => DiagonallyLeft
  | DiagonallyLeft => DiagonallyRight
  end.

(* The cell that a step in direction [d] leads to from (x, y), as the
   comments beside the [return]s of the direction functions give it; the far
   diagonals without their case split on the parity of x. *)
Definition step_of (d : Direction) (p : Z * Z) : Z * Z :=
  let '(x, y) := p in
  match d with
  | VerticallyUp => (x, y + 1)
  | VerticallyDown => (x, y - 1)
  | HorizontallyTopRight => if x <? 5 then (x + 1, y + 1) else (x + 1, y)
  | HorizontallyTopLeft => if 5 <? x then (x - 1, y + 1) else (x - 1, y)
  | HorizontallyBottomRight => if x <? 5 then (x + 1, y) else (x + 1, y - 1)
  | HorizontallyBottomLeft => if 5 <? x then (x - 1, y) else (x - 1, y - 1)
  | DiagonallyTopRight => if x <? 5 then (x + 1, y + 2) else (x + 1, y + 1)
  | DiagonallyTopLeft => if 5 <? x then (x - 1, y + 2) else (x - 1, y + 1)
  | DiagonallyBottomRight => if x <? 5 then (x + 1, y - 1) else (x + 1, y - 2)
  | DiagonallyBottomLeft => if 5 <? x then (x - 1, y - 1) else (x - 1, y - 2)
  | DiagonallyRight =>
      if x =? 4 then (x + 2, y)
      else if x <? 5 then (x + 2, y + 1) else (x + 2, y - 1)
  | DiagonallyLeft =>
      if x =? 6 then (x - 2, y)
      else if x <=? 5 then (x - 2, y - 1) else (x - 2, y + 1)
  end.

Definition key_of (p : Z * Z) : Z := Board.to_position_key p.1 p.2.

(** ** The boards of a session *)

(* The boards that [StartGame], [RegisterPiece] and [MovePiece] build. *)
Inductive session : BoardMap -> Prop :=
  | session_start : session ChessGod.StartGame
  | session_register b PieceInfo :
      session b -> session (ChessGod.RegisterPiece b PieceInfo)
  | session_move b From To :
      session b -> session (ChessGod.MovePiece b From To).

(** ** Where the pieces go *)

(* The directions along which a piece slides. *)
Definition slider_fns (pt : PieceType) : list (Z -> Z) :=
  match pt with
  | bishop => Board.bishop_fns
  | rook => Board.rook_fns
  | queen => Board.bishop_fns ++ Board.rook_fns
  | _ => []
  end.

(* [k] lies n+1 steps from [key] in direction [fn], the n cells in between
   are empty, and [k] is a cell without a piece of the mover's color. *)
Definition slides_to (m : BoardMap) (cell : Cell) (fn : Z -> Z) (key k : Z)
    : Prop :=
  exists n : nat,
    k = Nat.iter (S n) fn key
    /\ (forall i : nat, (i < n)%nat ->
          exists c, m !! Nat.iter (S i) fn key = Some c
                    /\ CellOps.has_piece c = false)
    /\ target m cell k.

(* The twelve jumps of a knight, in the order in which [add_knight_moves]
   tries them. *)
Definition knight_jumps : list (Z -> Z) :=
  [ fun key => Board.move_horizontally_top_right
                 (Board.move_vertically_up (Board.move_vertically_up key));
    fun key => Board.move_horizontally_top_left
                 (Board.move_vertically_up (Board.move_vertically_up key));
    fun key => Board.move_horizontally_bottom_right
                 (Board.move_vertically_down (Board.move_vertically_down key));
    fun key => Board.move_horizontally_bottom_left
                 (Board.move_vertically_down (Board.move_vertically_down key));
    fun key => Board.move_vertically_up
                 (Board.move_horizontally_top_right
                    (Board.move_horizontally_top_right key));
    fun key => Board.move_horizontally_bottom_right
                 (Board.move_horizontally_top_right
                    (Board.move_horizontally_top_right key));
    fun key => Board.move_vertically_down
                 (Board.move_horizontally_bottom_right
                    (Board.move_horizontally_bottom_right key));
    fun key => Board.move_horizontally_top_right
                 (Board.move_horizontally_bottom_right
                    (Board.move_horizontally_bottom_right key));
    fun key => Board.move_vertically_down
                 (Board.move_horizontally_bottom_left
                    (Board.move_horizontally_bottom_left key));
    fun key => Board.move_horizontally_top_left
                 (Board.move_horizontally_bottom_left
                    (Board.move_horizontally_bottom_left key));
    fun key => Board.move_vertically_up
                 (Board.move_horizontally_top_left
                    (Board.move_horizontally_top_left key));
    fun key => Board.move_horizontally_bottom_left
                 (Board.move_horizontally_top_left
                    (Board.move_horizontally_top_left key)) ].

(* The single steps of a king and the jumps of a knight. *)
Definition jumps (pt : PieceType) : list (Z -> Z) :=
  match pt with
  | king => Board.king_fns
  | knight => knight_jumps
  | _ => []
  end.

(* [k] is a cell that is empty or holds a piece of the opposite color. *)
Definition lands (m : BoardMap) (cell : Cell) (k : Z) : Prop :=
  exists c, m !! k = Some c
            /\ (CellOps.has_piece c = false
                \/ CellOps.has_piece_of_opposite_color c cell = true).

Definition empty_at (m : BoardMap) (k : Z) : Prop :=
  exists c, m !! k = Some c /\ CellOps.has_piece c = false.

(** * Properties *)

(** ** 32-bit arithmetic *)

Lemma wrap_spec (z : Z) :
  exists q : Z, Int32.wrap z = z + 2 ^ 32 * q /\ - 2 ^ 31 <= Int32.wrap z < 2 ^ 31.
Proof.
  unfold Int32.wrap.
  exists (- ((z + 2 ^ 31) / 2 ^ 32)).
  pose proof (Z.div_mod (z + 2 ^ 31) (2 ^ 32) ltac:(lia)).
  pose proof (Z.mod_pos_bound (z + 2 ^ 31) (2 ^ 32) ltac:(lia)).
  lia.
Qed.

Lemma wrap_small (z : Z) : - 2 ^ 31 <= z < 2 ^ 31 -> Int32.wrap z = z.
Proof.
  intros Hz. destruct (wrap_spec z) as (q & Hq & Hr). lia.
Qed.

Lemma wrap_wrap_add (a b : Z) : Int32.wrap (Int32.wrap a + b) = Int32.wrap (a + b).
Proof.
  destruct (wrap_spec a) as (qa & Ha & _).
  destruct (wrap_spec (Int32.wrap a + b)) as (q1 & H1 & R1).
  destruct (wrap_spec (a + b)) as (q2 & H2 & R2).
  lia.
Qed.

Lemma wrap_wrap_sub (a b : Z) : Int32.wrap (Int32.wrap a - b) = Int32.wrap (a - b).
Proof. unfold Z.sub. apply wrap_wrap_add. Qed.

Lemma step_x_eq : Board.step_x = 256.
Proof. reflexivity. Qed.

Lemma step_x2_eq : Board.step_x2 = 512.
Proof. reflexivity. Qed.

(** ** The board map and its traversal *)

Section MapFacts.

Implicit Types (m : BoardMap) (k key : Z) (c cell : Cell).

Lemma is_valid_position_true m k :
  Board.is_valid_position m k = true <-> is_Some (m !! k).
Proof. unfold Board.is_valid_position. apply bool_decide_eq_true. Qed.

Lemma is_valid_position_false m k :
  Board.is_valid_position m k = false <-> m !! k = None.
Proof.
  unfold Board.is_valid_position. rewrite bool_decide_eq_false.
  rewrite eq_None_not_Some. tauto.
Qed.

Lemma elem_of_map_keys m k : k ∈ Board.map_keys m <-> is_Some (m !! k).
Proof.
  unfold Board.map_keys. rewrite merge_sort_Permutation.
  rewrite elem_of_elements. apply elem_of_dom.
Qed.

Lemma NoDup_map_keys m : NoDup (Board.map_keys m).
Proof.
  unfold Board.map_keys. rewrite merge_sort_Permutation. apply NoDup_elements.
Qed.

Lemma map_keys_same_dom m1 m2 :
  dom m1 = dom m2 -> Board.map_keys m1 = Board.map_keys m2.
Proof. unfold Board.map_keys. intros ->. reflexivity. Qed.

Lemma elem_of_entries m k c : (k, c) ∈ Board.entries m <-> m !! k = Some c.
Proof.
  unfold Board.entries. rewrite list_elem_of_omap. split.
  - intros (k' & _ & Hk'). destruct (m !! k') as [c'|] eqn:E; simpl in Hk'.
    + injection Hk' as -> ->. exact E.
    + discriminate.
  - intros Hk. exists k. split.
    + apply elem_of_map_keys. eauto.
    + rewrite Hk. reflexivity.
Qed.

Lemma copy_board_map_id m : Board.copy_board_map m = m.
Proof.
  unfold Board.copy_board_map. apply map_eq. intros k.
  rewrite lookup_fmap. destruct (m !! k) as [[pt pc]|]; reflexivity.
Qed.

(* The piece list is the reversed selection of the traversal. *)
Lemma get_piece_keys_in_filter m pc :
  Board.get_piece_keys_in m pc =
  reverse (fst <$> filter (fun kc : Z * Cell => piece_color kc.2 = pc) (Board.entries m)).
Proof.
  unfold Board.get_piece_keys_in.
  assert (G : forall es acc,
    foldl (fun l '(key, cell) =>
             if bool_decide (piece_color cell = pc) then key :: l else l)
          acc es
    = reverse (fst <$> filter (fun kc : Z * Cell => piece_color kc.2 = pc) es) ++ acc).
  { induction es as [|[k c] es IH]; intros acc; simpl.
    - reflexivity.
    - rewrite IH. rewrite filter_cons. simpl.
      destruct (decide (piece_color c = pc)) as [E|E].
      + rewrite bool_decide_eq_true_2 by exact E.
        rewrite fmap_cons, reverse_cons. simpl. rewrite <- app_assoc. reflexivity.
      + rewrite bool_decide_eq_false_2 by exact E. reflexivity. }
  rewrite G. apply app_nil_r.
Qed.

Lemma elem_of_get_piece_keys_in m pc k :
  k ∈ Board.get_piece_keys_in m pc <->
  exists c, m !! k = Some c /\ piece_color c = pc.
Proof.
  rewrite get_piece_keys_in_filter, elem_of_reverse, list_elem_of_fmap. split.
  - intros ([k' c] & -> & H). apply list_elem_of_filter in H as [Hc H].
    apply elem_of_entries in H. eauto.
  - intros (c & Hk & Hc). exists (k, c). split; [reflexivity|].
    apply list_elem_of_filter. split; [exact Hc|]. apply elem_of_entries, Hk.
Qed.

End MapFacts.

(** ** The valid-cell set of a fresh board *)

(** C4. The board built by the constructor has exactly 91 cells, all of them
    empty, and its columns x = 0..10 hold 6,7,8,9,10,11,10,9,8,7,6 cells. *)
Theorem fresh_board_valid_cells :
  size Board.new = 91%nat
  /\ map (fun x => length (filter (fun key => Board.get_x key = x)
                                 (Board.map_keys Board.new)))
         (Board.int_range 0 11)
     = [6; 7; 8; 9; 10; 11; 10; 9; 8; 7; 6]%nat
  /\ Forall (fun key => 0 <= Board.get_x key <= 10) (Board.map_keys Board.new)
  /\ Forall (fun kc : Z * Cell => kc.2 = CellOps.new) (Board.entries Board.new).
Proof.
  split; [vm_compute; reflexivity|].
  split; [vm_compute; reflexivity|].
  split; apply (bool_decide_unpack _); vm_compute; exact I.
Qed.

(** ** Mutators *)

Section Mutators.

Implicit Types (m self : BoardMap) (k key : Z) (c src : Cell)
               (pos start goal : Position).

Lemma set_piece_in_valid m pos pt pc :
  is_Some (m !! Board.to_position_key_pos pos) ->
  Board.set_piece_in m pos pt pc
  = (<[Board.to_position_key_pos pos := mkCell pt pc]> m, false).
Proof.
  intros Hv. unfold Board.set_piece_in.
  rewrite (proj2 (is_valid_position_true _ _) Hv). simpl. f_equal.
  apply map_eq. intros k. rewrite lookup_alter, lookup_insert.
  destruct Hv as [c Hc]. case_decide; subst; [rewrite Hc|]; reflexivity.
Qed.

Lemma set_piece_in_invalid m pos pt pc :
  m !! Board.to_position_key_pos pos = None ->
  Board.set_piece_in m pos pt pc = (m, false).
Proof.
  intros Hv. unfold Board.set_piece_in.
  rewrite (proj2 (is_valid_position_false _ _) Hv). reflexivity.
Qed.

Lemma move_piece_in_valid m start goal src :
  m !! Board.to_position_key_pos start = Some src ->
  is_Some (m !! Board.to_position_key_pos goal) ->
  Board.move_piece_in m start goal
  = (<[Board.to_position_key_pos goal := mkCell (piece src) (piece_color src)]>
       (<[Board.to_position_key_pos start := mkCell none absent]> m), true).
Proof.
  intros Hs Hg. unfold Board.move_piece_in. rewrite Hs.
  unfold Board.is_valid_position_pos.
  rewrite (proj2 (is_valid_position_true _ _) Hg).
  assert (E : alter CellOps.remove_piece (Board.to_position_key_pos start) m
              = <[Board.to_position_key_pos start := mkCell none absent]> m).
  { apply map_eq. intros k. rewrite lookup_alter, lookup_insert.
    case_decide; subst; [rewrite Hs|]; reflexivity. }
  rewrite E, set_piece_in_valid; [reflexivity|].
  rewrite lookup_insert. case_decide; [eauto | exact Hg].
Qed.

Lemma move_piece_in_invalid m start goal :
  m !! Board.to_position_key_pos start = None
  \/ m !! Board.to_position_key_pos goal = None ->
  Board.move_piece_in m start goal = (m, true).
Proof.
  intros Hv. unfold Board.move_piece_in.
  destruct (m !! Board.to_position_key_pos start) as [src|] eqn:Hs;
    [|reflexivity].
  destruct Hv as [Hv|Hv]; [discriminate|].
  unfold Board.is_valid_position_pos.
  rewrite (proj2 (is_valid_position_false _ _) Hv). reflexivity.
Qed.

Lemma move_piece_in_dom m start goal :
  dom (Board.move_piece_in m start goal).1 = dom m.
Proof.
  destruct (m !! Board.to_position_key_pos start) as [src|] eqn:Hs.
  - destruct (m !! Board.to_position_key_pos goal) as [dst|] eqn:Hg.
    + rewrite (move_piece_in_valid _ _ _ _ Hs) by eauto. simpl.
      rewrite dom_insert_lookup_L.
      * apply dom_insert_lookup_L. eauto.
      * rewrite lookup_insert. case_decide; eauto.
    + rewrite move_piece_in_invalid by auto. reflexivity.
  - rewrite move_piece_in_invalid by auto. reflexivity.
Qed.

End Mutators.

Lemma move_piece_in_same m pos src :
  m !! Board.to_position_key_pos pos = Some src ->
  (Board.move_piece_in m pos pos).1 = m.
Proof.
  intros Hs. rewrite (move_piece_in_valid _ _ _ _ Hs) by eauto. simpl.
  rewrite insert_insert_eq. apply insert_id. rewrite Hs. destruct src; reflexivity.
Qed.

(** C6, as stated, fails when a piece is moved onto its own cell: both
    endpoints are valid, yet the source is not cleared and the board is left
    as it was. *)
Lemma move_piece_onto_itself :
  Board.is_valid_position_pos pawn_on_1_1 (mkPosition 1 1) = true
  /\ ~ move_piece_as_stated pawn_on_1_1 (mkPosition 1 1) (mkPosition 1 1)
  /\ (Board.move_piece pawn_on_1_1 (mkPosition 1 1) (mkPosition 1 1)).1
     = pawn_on_1_1.
Proof.
  split; [vm_compute; reflexivity|]. split.
  - intros [_ H]. vm_compute in H. discriminate H.
  - apply (move_piece_in_same _ _ (mkCell pawn white)). vm_compute. reflexivity.
Qed.

(** C6, amended.  [move_piece] changes the board only if both endpoints are
    valid cells.  In that case the result is the board in which the source
    cell has been cleared and then the destination cell overwritten with the
    piece and color the source held; no legality or capture rule is
    consulted.  (For distinct endpoints the source ends empty; for equal
    endpoints the cell keeps its piece.)  If either endpoint is invalid the
    board is unchanged. *)
Theorem move_piece_effect (self : BoardMap) (start goal : Position) :
  let sp := Board.to_position_key_pos start in
  let gp := Board.to_position_key_pos goal in
  let after := (Board.move_piece self start goal).1 in
  match self !! sp, self !! gp with
  | Some src, Some _ =>
      after = <[gp := mkCell (piece src) (piece_color src)]>
                (<[sp := mkCell none absent]> self)
      /\ after !! gp = Some src
      /\ (if decide (sp = gp) then True else after !! sp = Some (mkCell none absent))
      /\ forall k, (if decide (k = sp \/ k = gp) then True else after !! k = self !! k)
  | _, _ => after = self
  end.
Proof.
  intros sp gp after. subst after. unfold Board.move_piece.
  destruct (self !! sp) as [src|] eqn:Hs.
  - destruct (self !! gp) as [dst|] eqn:Hg.
    + rewrite (move_piece_in_valid _ _ _ _ Hs) by (fold gp; eauto). simpl.
      fold sp gp. split; [reflexivity|]. split.
      { rewrite lookup_insert_eq. destruct src; reflexivity. }
      split.
      { case_decide; [exact I|].
        rewrite lookup_insert_ne by congruence. apply lookup_insert_eq. }
      intros k. case_decide; [exact I|].
      rewrite !lookup_insert_ne by (intros ->; tauto). reflexivity.
    + rewrite move_piece_in_invalid by (right; exact Hg). reflexivity.
  - rewrite move_piece_in_invalid by (left; exact Hs). reflexivity.
Qed.

(** C10. [move_piece] returns [true] for every pair of positions; when an
    endpoint is invalid the call returns exactly the unchanged board together
    with [true], so the flag does not tell whether the move took effect. *)
Theorem move_piece_always_true (self : BoardMap) (start goal : Position) :
  (Board.move_piece self start goal).2 = true
  /\ (if Board.is_valid_position_pos self start
         && Board.is_valid_position_pos self goal
      then True
      else Board.move_piece self start goal = (self, true)).
Proof.
  unfold Board.move_piece. split.
  - unfold Board.move_piece_in.
    destruct (self !! Board.to_position_key_pos start);
      [destruct (Board.is_valid_position_pos self goal)|]; reflexivity.
  - destruct (Board.is_valid_position_pos self start) eqn:Hs; simpl.
    + destruct (Board.is_valid_position_pos self goal) eqn:Hg; [exact I|].
      apply move_piece_in_invalid. right. apply is_valid_position_false, Hg.
    + apply move_piece_in_invalid. left. apply is_valid_position_false, Hs.
Qed.

(** ** Keys outside the valid-cell set *)

Lemma queries_fault_outside (self in_board : BoardMap) (key : Z) (skip : bool) :
  in_board !! key = None ->
  Board.get_valid_moves_in self in_board key skip = Fault
  /\ Board.can_be_captured_in self in_board key = Fault.
Proof.
  intros Hk.
  unfold Board.get_valid_moves_in, Board.can_be_captured_in,
    Board.candidate_moves, Board.deref.
  rewrite Hk. split; reflexivity.
Qed.

(** C1, evaluated on the code.  For a position outside the valid-cell set the
    two mutators leave the board as it is, but [get_valid_moves] and
    [can_be_captured] index the map with the key and dereference the missing
    cell: both calls fault instead of answering "no moves" or "false". *)
Theorem queries_outside_valid_set_fault (self : BoardMap) (pos : Position)
    (pt : PieceType) (pc : PieceColor) (other : Position) :
  Board.is_valid_position_pos self pos = false ->
  (Board.set_piece self pos pt pc).1 = self
  /\ (Board.move_piece self pos other).1 = self
  /\ (Board.move_piece self other pos).1 = self
  /\ Board.get_valid_moves_pos self pos = Fault
  /\ Board.can_be_captured_pos self pos = Fault.
Proof.
  intros Hv. apply is_valid_position_false in Hv.
  unfold Board.set_piece, Board.move_piece.
  rewrite set_piece_in_invalid by exact Hv.
  rewrite !move_piece_in_invalid by auto.
  repeat split.
  - unfold Board.get_valid_moves_pos, Board.get_valid_moves.
    rewrite (proj1 (queries_fault_outside self self _ false Hv)). reflexivity.
  - unfold Board.can_be_captured_pos.
    apply (queries_fault_outside self self _ false Hv).
Qed.

Lemma queries_outside_valid_set_fault_witness :
  Board.is_valid_position_pos Board.new (mkPosition 11 0) = false
  /\ Board.get_valid_moves_pos Board.new (mkPosition 11 0) = Fault
  /\ Board.can_be_captured_pos Board.new (mkPosition 11 0) = Fault.
Proof.
  split; [vm_compute; reflexivity|].
  apply (queries_outside_valid_set_fault Board.new (mkPosition 11 0)
           pawn white (mkPosition 0 0)).
  vm_compute; reflexivity.
Defined.

(** ** Move generation: what a generated key stands on *)

(* Replace every 32-bit wrap by its defining equation, innermost first. *)
Ltac wrap_out :=
  unfold Int32.add, Int32.sub in *;
  repeat match goal with
    | |- context [Int32.wrap ?z] =>
        lazymatch z with
        | context [Int32.wrap _] => fail
        | _ => let q := fresh "q" in
               let Hq := fresh "Hq" in
               let Hr := fresh "Hr" in
               destruct (wrap_spec z) as (q & Hq & Hr);
               generalize dependent (Int32.wrap z); intros
        end
    | H : context [Int32.wrap ?z] |- _ =>
        lazymatch z with
        | context [Int32.wrap _] => fail
        | _ => let q := fresh "q" in
               let Hq := fresh "Hq" in
               let Hr := fresh "Hr" in
               destruct (wrap_spec z) as (q & Hq & Hr);
               generalize dependent (Int32.wrap z); intros
        end
    end.

Ltac unfold_moves :=
  unfold Board.move_vertically_up, Board.move_vertically_down,
    Board.move_horizontally_top_right, Board.move_horizontally_top_left,
    Board.move_horizontally_bottom_right, Board.move_horizontally_bottom_left,
    Board.move_diagonally_top_right, Board.move_diagonally_top_left,
    Board.move_diagonally_bottom_right, Board.move_diagonally_bottom_left,
    Board.move_diagonally_right, Board.move_diagonally_left in *;
  rewrite ?step_x_eq, ?step_x2_eq in *.

Section Generators.

Implicit Types (m in_board self : BoardMap) (k key : Z) (c cell : Cell)
               (l : list Z).

Lemma elem_of_add_if_valid in_board l key cell can_take k :
  k ∈ Board.add_if_valid in_board l key cell can_take <->
  k ∈ l \/ (k = key /\ exists c, in_board !! key = Some c
              /\ (CellOps.has_piece c = false
                  \/ (CellOps.has_piece_of_opposite_color c cell = true
                      /\ can_take = true))).
Proof.
  unfold Board.add_if_valid.
  destruct (in_board !! key) as [c|] eqn:Hk.
  - destruct (CellOps.has_piece c) eqn:Hp.
    + destruct (CellOps.has_piece_of_opposite_color c cell) eqn:Ho;
        destruct can_take; simpl; rewrite ?elem_of_cons; split;
        try (intros [->|H]; [right; split; [reflexivity|]; exists c; auto
                            | left; exact H]);
        try (intros [H|[-> _]]; [right; exact H | left; reflexivity]);
        try (intros H; left; exact H);
        intros [H|(_ & c' & Hc' & [H'|[H1 H2]])]; try exact H;
        try congruence.
    + rewrite elem_of_cons. split.
      * intros [->|H]; [right; split; [reflexivity|]; exists c; auto | left; exact H].
      * intros [H|[-> _]]; [right; exact H | left; reflexivity].
  - split; [intros H; left; exact H|].
    intros [H|(_ & c' & Hc' & _)]; [exact H | discriminate].
Qed.

Lemma elem_of_add_pawn_take_if_valid in_board l key cell k :
  k ∈ Board.add_pawn_take_if_valid in_board l key cell <->
  k ∈ l \/ (k = key /\ exists c, in_board !! key = Some c
              /\ CellOps.has_piece_of_opposite_color c cell = true).
Proof.
  unfold Board.add_pawn_take_if_valid.
  destruct (in_board !! key) as [c|] eqn:Hk.
  - destruct (CellOps.has_piece_of_opposite_color c cell) eqn:Ho;
      rewrite ?elem_of_cons; split.
    + intros [->|H]; [right; split; [reflexivity|]; exists c; auto | left; exact H].
    + intros [H|[-> _]]; [right; exact H | left; reflexivity].
    + intros H; left; exact H.
    + intros [H|(_ & c' & Hc' & H')]; [exact H | congruence].
  - split; [intros H; left; exact H|].
    intros [H|(_ & c' & Hc' & _)]; [exact H | discriminate].
Qed.

(* The filter only removes candidates. *)
Lemma filter_moves_subset self key cell king_key l acc r k :
  Board.filter_moves self key cell king_key l acc = Ok r ->
  k ∈ r -> k ∈ l \/ k ∈ acc.
Proof.
  revert acc. induction l as [|k0 l IH]; intros acc; simpl.
  - intros [= <-] H. right. exact H.
  - destruct (Board.can_be_captured_in _ _ _) as [captured| |]; simpl;
      try discriminate.
    intros Hr Hk. destruct (IH _ Hr Hk) as [H|H].
    + left. right. exact H.
    + destruct captured; simpl in H.
      * right. exact H.
      * apply elem_of_cons in H as [->|H]; [left; left | right; exact H].
Qed.

Lemma candidate_moves_ok self in_board key cell l king_key :
  Board.candidate_moves self in_board key = Ok (cell, l, king_key) ->
  in_board !! key = Some cell
  /\ Board.piece_moves in_board key cell = Ok l
  /\ Board.find_king_key in_board (Board.get_piece_keys self (piece_color cell))
     = Ok king_key.
Proof.
  unfold Board.candidate_moves, Board.deref.
  destruct (in_board !! key) as [c|]; simpl; [|discriminate].
  destruct (Board.piece_moves in_board key c) as [l'| |] eqn:Hl; simpl;
    try discriminate.
  destruct (Board.find_king_key _ _) as [kk| |] eqn:Hkk; simpl;
    try discriminate.
  intros [= -> -> ->]. auto.
Qed.

(* Whatever [skip_filter] is, a returned key is one of the candidates. *)
Lemma get_valid_moves_in_candidates self in_board key skip moves :
  Board.get_valid_moves_in self in_board key skip = Ok moves ->
  exists cell l king_key,
    Board.candidate_moves self in_board key = Ok (cell, l, king_key)
    /\ forall k, k ∈ moves -> k ∈ l.
Proof.
  unfold Board.get_valid_moves_in.
  destruct (Board.candidate_moves self in_board key)
    as [[[cell l] king_key]| |]; simpl; try discriminate.
  intros H. exists cell, l, king_key. split; [reflexivity|].
  destruct (skip || (king_key =? -1)).
  - injection H as <-. auto.
  - intros k Hk. destruct (filter_moves_subset _ _ _ _ _ _ _ _ H Hk) as [G|G].
    + exact G.
    + inversion G.
Qed.

Lemma get_valid_moves_in_skip self in_board key :
  Board.get_valid_moves_in self in_board key true
  = Board.get_valid_moves_skip self in_board key.
Proof.
  unfold Board.get_valid_moves_in, Board.get_valid_moves_skip.
  destruct (Board.candidate_moves self in_board key)
    as [[[cell l] king_key]| |]; reflexivity.
Qed.

End Generators.

(** ** Pawns *)

Lemma pawn_targets_distinct pc fn_move fn_take_1 fn_take_2 key :
  Board.pawn_directions pc = Some (fn_move, fn_take_1, fn_take_2) ->
  fn_move (fn_move key) <> fn_move key
  /\ fn_move (fn_move key) <> fn_take_1 key
  /\ fn_move (fn_move key) <> fn_take_2 key
  /\ fn_move key <> fn_take_1 key
  /\ fn_move key <> fn_take_2 key.
Proof.
  destruct pc; simpl; intros [= <- <- <-]; unfold_moves;
    repeat match goal with
      | |- context [if ?b then _ else _] => destruct b
      end;
    repeat split; intros E; wrap_out; lia.
Qed.

(** C7. For a pawn, the two-step forward key is among the generated moves
    only if the pawn stands on one of the starting keys of its color and the
    cell one step ahead exists and is empty; the one-step forward key is
    among them only if that cell is empty.  This holds for the raw and for
    the filtered list. *)
Theorem pawn_forward_steps (self in_board : BoardMap) (key : Z) (cell : Cell)
    (skip_filter : bool) (moves : list Z) (fn_move fn_take_1 fn_take_2 : Z -> Z) :
  in_board !! key = Some cell ->
  piece cell = pawn ->
  Board.pawn_directions (piece_color cell) = Some (fn_move, fn_take_1, fn_take_2) ->
  Board.get_valid_moves_in self in_board key skip_filter = Ok moves ->
  (fn_move (fn_move key) ∈ moves ->
     Board.is_initial_pawn_cell key cell = true
     /\ (exists c, in_board !! fn_move key = Some c /\ CellOps.has_piece c = false)
     /\ (exists c, in_board !! fn_move (fn_move key) = Some c
                   /\ CellOps.has_piece c = false))
  /\ (fn_move key ∈ moves ->
        exists c, in_board !! fn_move key = Some c /\ CellOps.has_piece c = false).
Proof.
  intros Hcell Hpawn Hdir Hmoves.
  destruct (get_valid_moves_in_candidates _ _ _ _ _ Hmoves)
    as (cell' & l & king_key & Hcand & Hsub).
  apply candidate_moves_ok in Hcand as (Hcell' & Hl & _).
  assert (cell' = cell) by congruence. subst cell'.
  unfold Board.piece_moves in Hl. rewrite Hpawn in Hl. injection Hl as <-.
  destruct (pawn_targets_distinct _ _ _ _ key Hdir) as (D1 & D2 & D3 & D4 & D5).
  unfold Board.add_pawn_moves in Hsub. rewrite Hdir in Hsub.
  split; intros Hin; apply Hsub in Hin;
    rewrite !elem_of_add_pawn_take_if_valid in Hin;
    destruct Hin as [[Hin|[E _]]|[E _]]; try congruence;
    destruct (in_board !! fn_move key) as [c1|] eqn:H1; try (inversion Hin; fail);
    destruct (negb (CellOps.has_piece c1) && Board.is_initial_pawn_cell key cell)
      eqn:Hb;
    rewrite ?elem_of_add_if_valid in Hin.
  - destruct Hin as [[Hin|[E _]]|(_ & c2 & H2 & [Hp|[_ ?]])];
      try (inversion Hin; fail); try congruence.
    apply andb_true_iff in Hb as [Hb1 Hb2]. apply negb_true_iff in Hb1.
    split; [exact Hb2|]. split; [exists c1; auto | exists c2; auto].
  - destruct Hin as [Hin|[E _]]; [inversion Hin | congruence].
  - destruct Hin as [[Hin|(_ & c & Hc & [Hp|[_ ?]])]|[E _]];
      try (inversion Hin; fail); try congruence.
    exists c. rewrite H1 in Hc. auto.
  - destruct Hin as [Hin|(_ & c & Hc & [Hp|[_ ?]])];
      try (inversion Hin; fail); try congruence.
    exists c. rewrite H1 in Hc. auto.
Qed.

Lemma pawn_forward_steps_witness :
  Board.get_valid_moves pawn_on_1_0 256 = Ok [258; 257]
  /\ Board.is_initial_pawn_cell 256 (mkCell pawn white) = true
  /\ (exists c, pawn_on_1_0 !! 257 = Some c /\ CellOps.has_piece c = false).
Proof.
  split; [vm_compute; reflexivity|].
  destruct (pawn_forward_steps pawn_on_1_0 pawn_on_1_0 256 (mkCell pawn white)
              false [258; 257] Board.move_vertically_up
              Board.move_horizontally_top_left Board.move_horizontally_top_right)
    as [Htwo _].
  - vm_compute. reflexivity.
  - reflexivity.
  - reflexivity.
  - vm_compute. reflexivity.
  - destruct Htwo as (Hinit & Hone & _); [left|]. split; assumption.
Defined.

(** ** Boards *)

Lemma keys_in_range_same_dom (m1 m2 : BoardMap) :
  dom m1 = dom m2 -> keys_in_range m1 -> keys_in_range m2.
Proof.
  intros Hd H k c Hk. assert (Hin : k ∈ dom m1).
  { rewrite Hd. apply elem_of_dom. eauto. }
  apply elem_of_dom in Hin as [c' Hc']. exact (H k c' Hc').
Qed.

Lemma fresh_board_in_range : keys_in_range Board.new.
Proof. apply (bool_decide_unpack _). vm_compute. exact I. Qed.

(** ** The boards a session can reach *)

Lemma set_piece_in_dom (m : BoardMap) pos pt pc :
  dom (Board.set_piece_in m pos pt pc).1 = dom m.
Proof.
  destruct (m !! Board.to_position_key_pos pos) as [c|] eqn:Hc.
  - rewrite set_piece_in_valid by eauto. simpl.
    apply dom_insert_lookup_L. eauto.
  - rewrite set_piece_in_invalid by exact Hc. reflexivity.
Qed.

Lemma reachable_dom b : reachable b -> dom b = dom Board.new.
Proof.
  induction 1 as [|b pos pt pc _ IH|b start goal _ IH]; [reflexivity| |].
  - unfold Board.set_piece. rewrite set_piece_in_dom. exact IH.
  - unfold Board.move_piece. rewrite move_piece_in_dom. exact IH.
Qed.

(* The mutators never add or remove a cell: every reachable board has the 91
   keys of the constructor, all in range. *)
Lemma reachable_bounds b : reachable b -> keys_in_range b /\ size b = 91%nat.
Proof.
  intros Hb. apply reachable_dom in Hb. split.
  - apply (keys_in_range_same_dom Board.new); [symmetry; exact Hb|].
    apply fresh_board_in_range.
  - rewrite <- (size_dom (D := gset Z)), Hb, size_dom.
    vm_compute. reflexivity.
Qed.

Lemma played_reachable b : played b -> reachable b.
Proof. induction 1; constructor; assumption. Qed.

Lemma played_consistent b : played b -> cells_consistent b.
Proof.
  induction 1 as [|b pos pt pc _ IH Hpt Hpc|b start goal _ IH].
  - apply (bool_decide_unpack _). vm_compute. exact I.
  - unfold Board.set_piece.
    destruct (b !! Board.to_position_key_pos pos) as [c|] eqn:Hc.
    + rewrite set_piece_in_valid by eauto. simpl.
      apply map_Forall_insert_2; [|exact IH]. simpl. tauto.
    + rewrite set_piece_in_invalid by exact Hc. exact IH.
  - unfold Board.move_piece.
    destruct (b !! Board.to_position_key_pos start) as [src|] eqn:Hs.
    + destruct (b !! Board.to_position_key_pos goal) as [dst|] eqn:Hg.
      * rewrite (move_piece_in_valid _ _ _ _ Hs) by eauto. simpl.
        apply map_Forall_insert_2.
        -- simpl. exact (IH _ _ Hs).
        -- apply map_Forall_insert_2; [simpl; tauto | exact IH].
      * rewrite move_piece_in_invalid by auto. exact IH.
    + rewrite move_piece_in_invalid by auto. exact IH.
Qed.

(** ** Termination of the sliding loop *)

Section Sliding.

Implicit Types (m in_board self : BoardMap) (k key pos : Z) (c cell : Cell)
               (l : list Z).

Lemma filter_length_mono_lt (P Q : Z -> Prop)
    `{!forall y, Decision (P y)} `{!forall y, Decision (Q y)} l x :
  (forall y, P y -> Q y) -> x ∈ l -> Q x -> ~ P x ->
  (length (filter P l) < length (filter Q l))%nat.
Proof.
  intros HPQ. induction l as [|y l IH]; intros Hx HQ HP.
  - inversion Hx.
  - rewrite !filter_cons. apply elem_of_cons in Hx as [<-|Hx].
    + destruct (decide (P x)); [contradiction|].
      destruct (decide (Q x)); [|contradiction]. simpl.
      assert (length (filter P l) <= length (filter Q l))%nat; [|lia].
      clear IH. induction l as [|z l IHl]; [reflexivity|].
      rewrite !filter_cons.
      destruct (decide (P z)) as [Hz|Hz].
      * destruct (decide (Q z)) as [Hq|Hq]; [simpl; lia|].
        destruct Hq. auto.
      * destruct (decide (Q z)); simpl; lia.
    + specialize (IH Hx HQ HP).
      destruct (decide (P y)) as [Hy|Hy].
      * destruct (decide (Q y)) as [Hq|Hq]; [simpl; lia|].
        destruct Hq. auto.
      * destruct (decide (Q y)); simpl; lia.
Qed.

Lemma length_map_keys m : length (Board.map_keys m) = size m.
Proof.
  unfold Board.map_keys. rewrite merge_sort_Permutation.
  change (length (elements (dom m))) with (size (dom m)).
  apply size_dom.
Qed.

Lemma slide_ascending fuel m fn cell pos l :
  ascends m fn ->
  (length (filter (fun k => (pos <= k)%Z) (Board.map_keys m)) < fuel)%nat ->
  exists r, Board.slide fuel m fn cell pos l = Ok r.
Proof.
  intros Hfn. revert pos l. induction fuel as [|fuel IH]; intros pos l Hlt.
  - lia.
  - simpl. destruct (m !! pos) as [c|] eqn:Hpos; [|eauto].
    destruct (CellOps.has_piece c).
    + destruct (CellOps.has_piece_of_same_color c cell); eauto.
    + apply IH.
      assert (Hs : is_Some (m !! pos)) by eauto.
      pose proof (Hfn pos Hs).
      enough (length (filter (fun k => (fn pos <= k)%Z) (Board.map_keys m))
              < length (filter (fun k => (pos <= k)%Z) (Board.map_keys m)))%nat
        by lia.
      apply (filter_length_mono_lt _ _ _ pos).
      * intros y. lia.
      * apply elem_of_map_keys, Hs.
      * lia.
      * lia.
Qed.

Lemma slide_descending fuel m fn cell pos l :
  descends m fn ->
  (length (filter (fun k => (k <= pos)%Z) (Board.map_keys m)) < fuel)%nat ->
  exists r, Board.slide fuel m fn cell pos l = Ok r.
Proof.
  intros Hfn. revert pos l. induction fuel as [|fuel IH]; intros pos l Hlt.
  - lia.
  - simpl. destruct (m !! pos) as [c|] eqn:Hpos; [|eauto].
    destruct (CellOps.has_piece c).
    + destruct (CellOps.has_piece_of_same_color c cell); eauto.
    + apply IH.
      assert (Hs : is_Some (m !! pos)) by eauto.
      pose proof (Hfn pos Hs).
      enough (length (filter (fun k => (k <= fn pos)%Z) (Board.map_keys m))
              < length (filter (fun k => (k <= pos)%Z) (Board.map_keys m)))%nat
        by lia.
      apply (filter_length_mono_lt _ _ _ pos).
      * intros y. lia.
      * apply elem_of_map_keys, Hs.
      * lia.
      * lia.
Qed.

Lemma slide_returns m fn cell pos l :
  ascends m fn \/ descends m fn ->
  exists r, Board.slide (Board.slide_fuel m) m fn cell pos l = Ok r.
Proof.
  unfold Board.slide_fuel. intros [H|H].
  - apply slide_ascending; [exact H|].
    pose proof (length_filter (fun k => (pos <= k)%Z) (Board.map_keys m)).
    rewrite length_map_keys in *. lia.
  - apply slide_descending; [exact H|].
    pose proof (length_filter (fun k => (k <= pos)%Z) (Board.map_keys m)).
    rewrite length_map_keys in *. lia.
Qed.

Lemma get_x_range k : 0 <= k < 2 ^ 30 -> 0 <= Board.get_x k < 2 ^ 22.
Proof.
  intros Hk. unfold Board.get_x, Int32.shr. rewrite Z.shiftr_div_pow2 by lia.
  change (2 ^ 8) with 256. split.
  - apply Z.div_pos; lia.
  - apply Z.div_lt_upper_bound; lia.
Qed.

Lemma every_direction_monotone m fn :
  keys_in_range m -> fn ∈ Board.king_fns -> ascends m fn \/ descends m fn.
Proof.
  intros Hm Hfn. unfold Board.king_fns in Hfn.
  assert (R : forall k, is_Some (m !! k) -> 0 <= k < 2 ^ 30).
  { intros k [c Hc]. exact (Hm k c Hc). }
  repeat (apply elem_of_cons in Hfn as [->|Hfn]);
    [ left | right | left | right | left | right
    | left | right | left | right | left | right | inversion Hfn ];
    intros k Hk; apply R in Hk; unfold_moves;
    change Board.median with 5;
    repeat match goal with
      | |- context [if ?b then _ else _] => destruct b
      end;
    wrap_out; lia.
Qed.

Lemma add_valid_moves_returns m l key fns cell :
  (forall fn, fn ∈ fns -> ascends m fn \/ descends m fn) ->
  exists r, Board.add_valid_moves m l key fns cell = Ok r.
Proof.
  revert l. induction fns as [|fn fns IH]; intros l Hfns;
    cbn [Board.add_valid_moves]; [eauto|].
  destruct (slide_returns m fn cell (fn key) l) as [r Hr].
  { apply Hfns. left. }
  rewrite Hr. simpl. apply IH. intros fn' Hfn'. apply Hfns. right. exact Hfn'.
Qed.

Lemma bishop_fns_directions fn : fn ∈ Board.bishop_fns -> fn ∈ Board.king_fns.
Proof.
  unfold Board.bishop_fns, Board.king_fns. intros H.
  repeat (apply elem_of_cons in H as [->|H]); [..|inversion H];
    repeat (first [left; reflexivity | right]).
Qed.

Lemma rook_fns_directions fn : fn ∈ Board.rook_fns -> fn ∈ Board.king_fns.
Proof.
  unfold Board.rook_fns, Board.king_fns. intros H.
  repeat (apply elem_of_cons in H as [->|H]); [..|inversion H];
    repeat (first [left; reflexivity | right]).
Qed.

Lemma piece_moves_returns m key cell :
  keys_in_range m -> exists l, Board.piece_moves m key cell = Ok l.
Proof.
  intros Hm. unfold Board.piece_moves.
  assert (B : forall l, exists r, Board.add_bishop_moves m l key cell = Ok r).
  { intros l. apply add_valid_moves_returns. intros fn Hfn.
    apply every_direction_monotone; [exact Hm|]. apply bishop_fns_directions, Hfn. }
  assert (R : forall l, exists r, Board.add_rook_moves m l key cell = Ok r).
  { intros l. apply add_valid_moves_returns. intros fn Hfn.
    apply every_direction_monotone; [exact Hm|]. apply rook_fns_directions, Hfn. }
  destruct (piece cell); eauto.
  unfold Board.add_queen_moves. destruct (B []) as [r ->]. simpl. apply R.
Qed.

End Sliding.

(** ** Raw moves and capture *)

Section Capture.

Implicit Types (m in_board self : BoardMap) (k key : Z) (c cell : Cell)
               (l : list Z).

Lemma get_piece_keys_valid m pc k :
  k ∈ Board.get_piece_keys m pc -> is_Some (m !! k).
Proof.
  unfold Board.get_piece_keys. rewrite elem_of_get_piece_keys_in.
  intros (c & Hc & _). eauto.
Qed.

Lemma find_king_key_returns in_board ks :
  (forall k, k ∈ ks -> is_Some (in_board !! k)) ->
  exists kk, Board.find_king_key in_board ks = Ok kk.
Proof.
  induction ks as [|k ks IH]; intros Hks; simpl; [eauto|].
  destruct (Hks k) as [c Hc]; [left|].
  unfold Board.deref. rewrite Hc. simpl.
  destruct (bool_decide (piece c = king)); [eauto|].
  apply IH. intros k' Hk'. apply Hks. right. exact Hk'.
Qed.

(* With [skip_filter] set, the board behind [this] only matters through the
   unguarded lookups of the king search. *)
Lemma get_valid_moves_skip_raw self in_board key :
  dom self ⊆ dom in_board ->
  Board.get_valid_moves_skip self in_board key = raw_moves in_board key.
Proof.
  intros Hdom.
  unfold Board.get_valid_moves_skip, Board.candidate_moves, raw_moves.
  destruct (Board.deref in_board key) as [cell| |]; simpl; try reflexivity.
  destruct (Board.piece_moves in_board key cell) as [l| |]; simpl;
    try reflexivity.
  destruct (find_king_key_returns in_board
              (Board.get_piece_keys self (piece_color cell))) as [kk ->].
  - intros k Hk. apply get_piece_keys_valid in Hk.
    apply elem_of_dom. apply Hdom. apply elem_of_dom. exact Hk.
  - reflexivity.
Qed.

Lemma get_all_piece_move_keys_loop_ext f g ks acc :
  (forall k, k ∈ ks -> f k = g k) ->
  Board.get_all_piece_move_keys_loop f ks acc
  = Board.get_all_piece_move_keys_loop g ks acc.
Proof.
  revert acc. induction ks as [|k ks IH]; intros acc Hfg; simpl; [reflexivity|].
  rewrite <- (Hfg k) by left.
  destruct (f k) as [ms| |]; simpl; try reflexivity.
  apply IH. intros k' Hk'. apply Hfg. right. exact Hk'.
Qed.

Lemma get_all_piece_move_keys_loop_returns f ks acc :
  (forall k, k ∈ ks -> exists ms, f k = Ok ms) ->
  exists r, Board.get_all_piece_move_keys_loop f ks acc = Ok r.
Proof.
  revert acc. induction ks as [|k ks IH]; intros acc Hf; simpl; [eauto|].
  destruct (Hf k) as [ms ->]; [left|]. simpl.
  apply IH. intros k' Hk'. apply Hf. right. exact Hk'.
Qed.

Lemma elem_of_get_all_piece_move_keys_loop f ks acc r x :
  Board.get_all_piece_move_keys_loop f ks acc = Ok r ->
  x ∈ r <-> x ∈ acc \/ exists k ms, k ∈ ks /\ f k = Ok ms /\ x ∈ ms.
Proof.
  revert acc. induction ks as [|k ks IH]; intros acc; simpl.
  - intros [= <-]. split; [auto|].
    intros [H|(k & ms & Hk & _)]; [exact H | inversion Hk].
  - destruct (f k) as [ms| |] eqn:Hfk; simpl; try discriminate.
    intros Hr. rewrite (IH _ Hr), elem_of_app. split.
    + intros [[H|H]|(k' & ms' & Hk' & Hf' & Hx)].
      * left. exact H.
      * right. exists k, ms. split; [left|]. auto.
      * right. exists k', ms'. split; [right; exact Hk'|]. auto.
    + intros [H|(k' & ms' & Hk' & Hf' & Hx)].
      * left. left. exact H.
      * apply elem_of_cons in Hk' as [->|Hk'].
        -- left. right. congruence.
        -- right. exists k', ms'. auto.
Qed.

Lemma get_all_piece_move_keys_skip_raw self in_board pc :
  dom self ⊆ dom in_board ->
  Board.get_all_piece_move_keys_skip self in_board pc
  = Board.get_all_piece_move_keys_loop (raw_moves in_board)
      (Board.get_piece_keys_in in_board pc) [].
Proof.
  intros Hdom. unfold Board.get_all_piece_move_keys_skip.
  apply get_all_piece_move_keys_loop_ext. intros k _.
  apply get_valid_moves_skip_raw, Hdom.
Qed.

Lemma can_be_captured_in_self self in_board key :
  dom self ⊆ dom in_board ->
  Board.can_be_captured_in self in_board key
  = Board.can_be_captured in_board key.
Proof.
  intros Hdom. unfold Board.can_be_captured, Board.can_be_captured_in.
  destruct (Board.deref in_board key) as [c| |]; simpl; try reflexivity.
  rewrite !get_all_piece_move_keys_skip_raw by (exact Hdom || reflexivity).
  reflexivity.
Qed.

Lemma raw_moves_returns m key :
  keys_in_range m -> is_Some (m !! key) -> exists l, raw_moves m key = Ok l.
Proof.
  intros Hm [c Hc]. unfold raw_moves, Board.deref. rewrite Hc. simpl.
  apply piece_moves_returns, Hm.
Qed.

Lemma can_be_captured_returns m key :
  keys_in_range m -> is_Some (m !! key) ->
  exists b, Board.can_be_captured m key = Ok b.
Proof.
  intros Hm [c Hc]. unfold Board.can_be_captured, Board.can_be_captured_in.
  unfold Board.deref at 1. rewrite Hc. simpl.
  rewrite get_all_piece_move_keys_skip_raw by reflexivity.
  destruct (get_all_piece_move_keys_loop_returns (raw_moves m)
              (Board.get_piece_keys_in m (CellOps.get_opposite_color c)) [])
    as [r ->].
  - intros k Hk. apply raw_moves_returns; [exact Hm|].
    apply elem_of_get_piece_keys_in in Hk as (c' & Hc' & _). eauto.
  - simpl. eauto.
Qed.

(* [can_be_captured] in terms of the raw moves of the opposing pieces. *)
Lemma can_be_captured_true m key c :
  m !! key = Some c ->
  Board.can_be_captured m key = Ok true ->
  exists k ck ms, m !! k = Some ck
    /\ piece_color ck = CellOps.get_opposite_color c
    /\ raw_moves m k = Ok ms /\ key ∈ ms.
Proof.
  intros Hc. unfold Board.can_be_captured, Board.can_be_captured_in.
  unfold Board.deref at 1. rewrite Hc. simpl.
  rewrite get_all_piece_move_keys_skip_raw by reflexivity.
  destruct (Board.get_all_piece_move_keys_loop _ _ _) as [r| |] eqn:Hr;
    simpl; try discriminate.
  intros [= Hin]. apply bool_decide_eq_true in Hin.
  apply (elem_of_get_all_piece_move_keys_loop _ _ _ _ _ Hr) in Hin
    as [Hin|(k & ms & Hk & Hms & Hin)]; [inversion Hin|].
  apply elem_of_get_piece_keys_in in Hk as (ck & Hck & Hcol).
  exists k, ck, ms. auto.
Qed.

End Capture.

(** ** Empty cells *)

(** C9, as stated, fails on boards that the public [set_piece] builds.  A
    cell that was given a color but no piece has an opposite color, so the
    rook of that color above it makes [can_be_captured] answer [true]; and a
    rook that was given no color counts as an opponent of every cell without
    a color. *)
Lemma empty_cell_capturable :
  (colored_empty_cell !! 1285 = Some (mkCell none white)
   /\ CellOps.has_piece (mkCell none white) = false
   /\ Board.can_be_captured colored_empty_cell 1285 = Ok true)
  /\ (colorless_rook !! 1285 = Some (mkCell none absent)
      /\ CellOps.has_piece (mkCell none absent) = false
      /\ Board.can_be_captured colorless_rook 1285 = Ok true).
Proof. repeat split; vm_compute; reflexivity. Qed.

(** C9, amended.  For every valid cell that holds no piece and has no color,
    on a board where no cell without a color holds a piece,
    [can_be_captured] answers [false], whatever the pieces around it can
    reach. *)
Theorem empty_cell_not_capturable (self : BoardMap) (p : Z) (c : Cell) :
  self !! p = Some c ->
  CellOps.has_piece c = false ->
  piece_color c = absent ->
  colorless_cells_empty self ->
  Board.can_be_captured self p = Ok false.
Proof.
  intros Hc Hp Hcol Hwf.
  assert (Habs : CellOps.get_opposite_color c = absent).
  { unfold CellOps.get_opposite_color. rewrite Hcol. reflexivity. }
  assert (Hraw : forall k, k ∈ Board.get_piece_keys_in self absent ->
                           raw_moves self k = Ok []).
  { intros k Hk. apply elem_of_get_piece_keys_in in Hk as (ck & Hck & Hcolk).
    unfold raw_moves, Board.deref. rewrite Hck. simpl.
    unfold Board.piece_moves. rewrite (Hwf k ck Hck Hcolk). reflexivity. }
  unfold Board.can_be_captured, Board.can_be_captured_in.
  unfold Board.deref at 1. rewrite Hc. simpl. rewrite Habs.
  rewrite get_all_piece_move_keys_skip_raw by reflexivity.
  destruct (get_all_piece_move_keys_loop_returns (raw_moves self)
              (Board.get_piece_keys_in self absent) []) as [r Hr].
  { intros k Hk. rewrite (Hraw k Hk). eauto. }
  rewrite Hr. simpl. f_equal. apply bool_decide_eq_false. intros Hin.
  apply (elem_of_get_all_piece_move_keys_loop _ _ _ _ _ Hr) in Hin
    as [Hin|(k & ms & Hk & Hms & Hin)]; [inversion Hin|].
  rewrite (Hraw k Hk) in Hms. injection Hms as <-. inversion Hin.
Qed.

Lemma empty_cell_not_capturable_witness :
  (exists ms, Board.get_valid_moves rook_on_5_8 1288 = Ok ms /\ 1285 ∈ ms)
  /\ Board.can_be_captured rook_on_5_8 1285 = Ok false.
Proof.
  split.
  - eexists. split; [vm_compute; reflexivity|].
    apply (bool_decide_unpack _). vm_compute. exact I.
  - apply (empty_cell_not_capturable rook_on_5_8 1285 CellOps.new).
    + vm_compute. reflexivity.
    + reflexivity.
    + reflexivity.
    + apply (bool_decide_unpack _). vm_compute. exact I.
Defined.

(** ** Evaluation *)

Section Evaluate.

Implicit Types (m self : BoardMap) (k key : Z) (c cell : Cell).

Lemma Zsum_app (l1 l2 : list Z) : Zsum (l1 ++ l2) = Zsum l1 + Zsum l2.
Proof. induction l1 as [|z l1 IH]; simpl; lia. Qed.

Lemma Zsum_reverse (l : list Z) : Zsum (reverse l) = Zsum l.
Proof.
  induction l as [|z l IH]; [reflexivity|].
  rewrite reverse_cons, Zsum_app, IH. simpl. lia.
Qed.

Lemma can_be_captured_capturable m key :
  keys_in_range m -> is_Some (m !! key) ->
  Board.can_be_captured m key = Ok (capturable m key).
Proof.
  intros Hm Hk. destruct (can_be_captured_returns m key Hm Hk) as [b Hb].
  unfold capturable. rewrite Hb. reflexivity.
Qed.

Lemma evaluate_loop_white m pieces score :
  keys_in_range m ->
  (forall k, k ∈ pieces -> is_Some (m !! k)) ->
  - 2 ^ 31 <= score < 2 ^ 31 ->
  Board.evaluate_loop m m Int32.sub Int32.add pieces score
  = Ok (Int32.wrap (score + Zsum (piece_delta m <$> pieces))).
Proof.
  intros Hm. revert score.
  induction pieces as [|k pieces IH]; intros score Hks Hs; simpl.
  - rewrite Z.add_0_r, wrap_small by exact Hs. reflexivity.
  - assert (Hk : is_Some (m !! k)) by (apply Hks; left).
    assert (Hrest : forall k', k' ∈ pieces -> is_Some (m !! k'))
      by (intros k' Hk'; apply Hks; right; exact Hk').
    unfold piece_delta at 1. destruct Hk as [c Hc].
    unfold Board.deref. rewrite Hc. simpl.
    destruct (bool_decide (piece c = king)).
    + change (Board.can_be_captured_in m m k) with (Board.can_be_captured m k).
      rewrite can_be_captured_capturable by eauto. simpl.
      destruct (capturable m k).
      * rewrite IH; [|exact Hrest|].
        -- unfold Int32.sub. rewrite wrap_wrap_add. do 2 f_equal; unfold fmap; lia.
        -- unfold Int32.sub. destruct (wrap_spec (score - Board.piece_values king))
             as (q & _ & Hr). exact Hr.
      * rewrite IH by auto. do 2 f_equal; unfold fmap; lia.
    + rewrite IH; [|exact Hrest|].
      * unfold Int32.add. rewrite wrap_wrap_add. do 2 f_equal; unfold fmap; lia.
      * unfold Int32.add.
        destruct (wrap_spec (score + Board.piece_values (piece c)))
          as (q & _ & Hr). exact Hr.
Qed.

Lemma evaluate_loop_black m pieces score :
  keys_in_range m ->
  (forall k, k ∈ pieces -> is_Some (m !! k)) ->
  - 2 ^ 31 <= score < 2 ^ 31 ->
  Board.evaluate_loop m m Int32.add Int32.sub pieces score
  = Ok (Int32.wrap (score - Zsum (piece_delta m <$> pieces))).
Proof.
  intros Hm. revert score.
  induction pieces as [|k pieces IH]; intros score Hks Hs; simpl.
  - rewrite Z.sub_0_r, wrap_small by exact Hs. reflexivity.
  - assert (Hk : is_Some (m !! k)) by (apply Hks; left).
    assert (Hrest : forall k', k' ∈ pieces -> is_Some (m !! k'))
      by (intros k' Hk'; apply Hks; right; exact Hk').
    unfold piece_delta at 1. destruct Hk as [c Hc].
    unfold Board.deref. rewrite Hc. simpl.
    destruct (bool_decide (piece c = king)).
    + change (Board.can_be_captured_in m m k) with (Board.can_be_captured m k).
      rewrite can_be_captured_capturable by eauto. simpl.
      destruct (capturable m k).
      * rewrite IH; [|exact Hrest|].
        -- unfold Int32.add. rewrite wrap_wrap_sub. do 2 f_equal; unfold fmap; lia.
        -- unfold Int32.add. destruct (wrap_spec (score + Board.piece_values king))
             as (q & _ & Hr). exact Hr.
      * rewrite IH by auto. do 2 f_equal; unfold fmap; lia.
    + rewrite IH; [|exact Hrest|].
      * unfold Int32.sub. rewrite wrap_wrap_sub. do 2 f_equal; unfold fmap; lia.
      * unfold Int32.sub.
        destruct (wrap_spec (score - Board.piece_values (piece c)))
          as (q & _ & Hr). exact Hr.
Qed.

Lemma contribution_split m (es : list (Z * Cell)) :
  (forall k c, (k, c) ∈ es -> m !! k = Some c) ->
  Zsum (contribution m <$> es)
  = Zsum (piece_delta m <$>
            (fst <$> filter (fun kc : Z * Cell => piece_color kc.2 = white) es))
    - Zsum (piece_delta m <$>
              (fst <$> filter (fun kc : Z * Cell => piece_color kc.2 = black) es)).
Proof.
  induction es as [|[k c] es IH]; intros Hes; [reflexivity|].
  rewrite !filter_cons, fmap_cons. simpl Zsum.
  rewrite IH by (intros k' c' H; apply Hes; right; exact H).
  assert (Hc : m !! k = Some c) by (apply Hes; left).
  destruct (piece_color c) eqn:Hcol; simpl; unfold piece_delta, fmap;
    simpl; rewrite ?Hc; destruct (bool_decide (piece c = king));
    try destruct (capturable m k); lia.
Qed.

(* The value [evaluate] returns, as the 32-bit registers hold it. *)
Lemma evaluate_wrapped_sum m :
  keys_in_range m ->
  Board.evaluate m
  = Ok (Int32.wrap (Zsum (contribution m <$> Board.entries m))).
Proof.
  intros Hm. unfold Board.evaluate, Board.evaluate_in.
  rewrite evaluate_loop_white;
    [|exact Hm|intros k Hk; apply (get_piece_keys_valid m white), Hk|lia].
  simpl. rewrite evaluate_loop_black;
    [|exact Hm|intros k Hk; apply (get_piece_keys_valid m black), Hk|].
  - rewrite contribution_split by (intros k c; apply elem_of_entries).
    rewrite !get_piece_keys_in_filter, !fmap_reverse, !Zsum_reverse.
    rewrite wrap_wrap_sub. reflexivity.
  - destruct (wrap_spec (0 + Zsum (piece_delta m <$>
                                     Board.get_piece_keys_in m white)))
      as (q & _ & Hr). exact Hr.
Qed.

Lemma contribution_bound m kc : - 100 <= contribution m kc <= 100.
Proof.
  destruct kc as [k [pt pc]]. unfold contribution. simpl.
  destruct pc; [lia| |]; destruct pt; simpl;
    try destruct (capturable m k); lia.
Qed.

Lemma Zsum_bound (f : Z * Cell -> Z) (es : list (Z * Cell)) :
  (forall kc, - 100 <= f kc <= 100) ->
  - 100 * Z.of_nat (length es) <= Zsum (f <$> es) <= 100 * Z.of_nat (length es).
Proof.
  intros Hf. induction es as [|kc es IH]; simpl; [lia|].
  specialize (Hf kc). unfold fmap in *. lia.
Qed.

Lemma length_entries m : length (Board.entries m) = size m.
Proof.
  unfold Board.entries. rewrite <- length_map_keys.
  assert (G : forall ks, (forall k, k ∈ ks -> is_Some (m !! k)) ->
              length (omap (fun key => pair key <$> m !! key) ks) = length ks).
  { induction ks as [|k ks IH]; intros Hks; [reflexivity|]. simpl.
    destruct (Hks k) as [c Hc]; [left|]. rewrite Hc. simpl. f_equal.
    apply IH. intros k' Hk'. apply Hks. right. exact Hk'. }
  apply G. intros k. apply elem_of_map_keys.
Qed.

End Evaluate.

(** C2, as stated, fails wherever a king stands.  A lone white king that
    nothing attacks counts 100 in the stated sum, [evaluate] returns 0; with
    both kings on the board and the white one in check from a rook the stated
    sum is -205, [evaluate] returns -105. *)
Lemma evaluate_ignores_safe_king :
  Board.evaluate king_on_5_5
  <> Ok (Zsum (contribution_as_stated king_on_5_5 <$> Board.entries king_on_5_5))
  /\ Board.evaluate king_on_5_5 = Ok 0
  /\ Zsum (contribution_as_stated king_on_5_5 <$> Board.entries king_on_5_5) = 100
  /\ Board.evaluate check_position = Ok (- 105)
  /\ Zsum (contribution_as_stated check_position <$> Board.entries check_position)
     = - 205.
Proof.
  assert (E : Board.evaluate king_on_5_5 = Ok 0) by (vm_compute; reflexivity).
  assert (S : Zsum (contribution_as_stated king_on_5_5 <$> Board.entries king_on_5_5)
              = 100) by (vm_compute; reflexivity).
  split; [rewrite E, S; discriminate|].
  split; [exact E|]. split; [exact S|].
  split; vm_compute; reflexivity.
Qed.

(** C2, amended.  On every board of at most 2^20 cells with keys in range,
    [evaluate] returns the sum over all cells of: the piece value
    ({pawn 1, knight 3, bishop 3, rook 5, queen 9}) for a white piece other
    than a king and its negation for a black one; for a king nothing, unless
    the opponent can capture it, in which case 100 is subtracted for a white
    king and added for a black one. *)
Theorem evaluate_material_sum (self : BoardMap) :
  keys_in_range self ->
  Z.of_nat (size self) <= 2 ^ 20 ->
  Board.evaluate self = Ok (Zsum (contribution self <$> Board.entries self))
  /\ forall key, is_Some (self !! key) ->
       Board.can_be_captured self key = Ok (capturable self key).
Proof.
  intros Hm Hsize. split.
  - rewrite evaluate_wrapped_sum by exact Hm. f_equal. apply wrap_small.
    pose proof (Zsum_bound (contribution self) (Board.entries self)
                  (contribution_bound self)) as B.
    rewrite length_entries in B. lia.
  - intros key. apply can_be_captured_capturable, Hm.
Qed.

Lemma evaluate_material_sum_witness :
  Board.evaluate king_and_rook
  = Ok (Zsum (contribution king_and_rook <$> Board.entries king_and_rook))
  /\ Zsum (contribution king_and_rook <$> Board.entries king_and_rook) = - 105.
Proof.
  split.
  - apply (evaluate_material_sum king_and_rook).
    + apply (bool_decide_unpack _). vm_compute. exact I.
    + vm_compute. discriminate.
  - vm_compute. reflexivity.
Defined.

(** ** Swapping the colors *)

Section Swap.

Implicit Types (m : BoardMap) (k key : Z) (c cell : Cell) (l : list Z).

Lemma swap_color_involutive pc : swap_color (swap_color pc) = pc.
Proof. destruct pc; reflexivity. Qed.

Lemma lookup_swap m k : swap_colors m !! k = swap_cell <$> m !! k.
Proof. apply lookup_fmap. Qed.

Lemma dom_swap m : dom (swap_colors m) = dom m.
Proof. apply dom_fmap_L. Qed.

Lemma size_swap m : size (swap_colors m) = size m.
Proof. apply map_size_fmap. Qed.

Lemma keys_in_range_swap m : keys_in_range m -> keys_in_range (swap_colors m).
Proof. apply keys_in_range_same_dom. symmetry. apply dom_swap. Qed.

Lemma entries_swap m :
  Board.entries (swap_colors m)
  = (fun kc : Z * Cell => (kc.1, swap_cell kc.2)) <$> Board.entries m.
Proof.
  unfold Board.entries.
  rewrite (map_keys_same_dom _ _ (dom_swap m)).
  unfold omap, fmap.
  induction (Board.map_keys m) as [|k ks IH]; [reflexivity|].
  simpl. rewrite lookup_swap, IH.
  destruct (m !! k) as [c|]; reflexivity.
Qed.

Lemma get_piece_keys_in_swap m pc :
  Board.get_piece_keys_in (swap_colors m) pc
  = Board.get_piece_keys_in m (swap_color pc).
Proof.
  rewrite !get_piece_keys_in_filter, entries_swap. f_equal.
  induction (Board.entries m) as [|[k c] es IH]; [reflexivity|].
  rewrite fmap_cons, !filter_cons. simpl.
  destruct (decide (swap_color (piece_color c) = pc)) as [E|E];
    destruct (decide (piece_color c = swap_color pc)) as [E'|E'].
  - rewrite !fmap_cons, IH. reflexivity.
  - destruct E'. rewrite <- E. symmetry. apply swap_color_involutive.
  - destruct E. rewrite E'. apply swap_color_involutive.
  - exact IH.
Qed.

Lemma has_piece_swap c : CellOps.has_piece (swap_cell c) = CellOps.has_piece c.
Proof. reflexivity. Qed.

Lemma has_piece_of_same_color_swap c cell :
  CellOps.has_piece_of_same_color (swap_cell c) (swap_cell cell)
  = CellOps.has_piece_of_same_color c cell.
Proof. destruct c as [pt [| |]], cell as [pt' [| |]]; destruct pt; reflexivity. Qed.

Lemma has_piece_of_opposite_color_swap c cell :
  CellOps.has_piece_of_opposite_color (swap_cell c) (swap_cell cell)
  = CellOps.has_piece_of_opposite_color c cell.
Proof. destruct c as [pt [| |]], cell as [pt' [| |]]; destruct pt; reflexivity. Qed.

Lemma add_if_valid_swap m l key cell can_take :
  Board.add_if_valid (swap_colors m) l key (swap_cell cell) can_take
  = Board.add_if_valid m l key cell can_take.
Proof.
  unfold Board.add_if_valid. rewrite lookup_swap.
  destruct (m !! key) as [c|]; simpl; [|reflexivity].
  rewrite has_piece_swap, has_piece_of_opposite_color_swap. reflexivity.
Qed.

Lemma slide_swap fuel m fn cell pos l :
  Board.slide fuel (swap_colors m) fn (swap_cell cell) pos l
  = Board.slide fuel m fn cell pos l.
Proof.
  revert pos l. induction fuel as [|fuel IH]; intros pos l; simpl;
    [reflexivity|].
  rewrite lookup_swap. destruct (m !! pos) as [c|]; simpl; [|reflexivity].
  rewrite has_piece_swap, has_piece_of_same_color_swap, IH. reflexivity.
Qed.

Lemma add_valid_moves_swap m l key fns cell :
  Board.add_valid_moves (swap_colors m) l key fns (swap_cell cell)
  = Board.add_valid_moves m l key fns cell.
Proof.
  revert l. induction fns as [|fn fns IH]; intros l;
    cbn [Board.add_valid_moves]; [reflexivity|].
  unfold Board.slide_fuel. rewrite size_swap, slide_swap.
  destruct (Board.slide _ m fn cell (fn key) l) as [r| |]; simpl;
    [apply IH | reflexivity | reflexivity].
Qed.

Lemma piece_moves_swap m key cell :
  piece cell <> pawn ->
  Board.piece_moves (swap_colors m) key (swap_cell cell)
  = Board.piece_moves m key cell.
Proof.
  intros Hp. unfold Board.piece_moves. simpl.
  destruct (piece cell); try reflexivity.
  - congruence.
  - f_equal. unfold Board.add_knight_moves.
    rewrite !add_if_valid_swap. reflexivity.
  - unfold Board.add_bishop_moves. apply add_valid_moves_swap.
  - unfold Board.add_rook_moves. apply add_valid_moves_swap.
  - unfold Board.add_queen_moves, Board.add_bishop_moves, Board.add_rook_moves.
    rewrite add_valid_moves_swap.
    destruct (Board.add_valid_moves m [] key Board.bishop_fns cell);
      cbn [mbind outcome_bind];
      [apply add_valid_moves_swap | reflexivity | reflexivity].
  - f_equal. unfold Board.add_king_moves.
    generalize (@nil Z). induction Board.king_fns as [|fn fns IH]; intros l;
      simpl; [reflexivity|].
    rewrite add_if_valid_swap. apply IH.
Qed.

Lemma raw_moves_swap m key :
  no_pawns m -> raw_moves (swap_colors m) key = raw_moves m key.
Proof.
  intros Hm. unfold raw_moves, Board.deref. rewrite lookup_swap.
  destruct (m !! key) as [c|] eqn:Hc; simpl; [|reflexivity].
  apply piece_moves_swap. exact (Hm key c Hc).
Qed.

Lemma can_be_captured_swap m key :
  no_pawns m ->
  Board.can_be_captured (swap_colors m) key = Board.can_be_captured m key.
Proof.
  intros Hm. unfold Board.can_be_captured, Board.can_be_captured_in.
  unfold Board.deref. rewrite lookup_swap.
  destruct (m !! key) as [c|]; simpl; [|reflexivity].
  rewrite !get_all_piece_move_keys_skip_raw by reflexivity.
  rewrite get_piece_keys_in_swap.
  replace (swap_color (CellOps.get_opposite_color (swap_cell c)))
    with (CellOps.get_opposite_color c)
    by (destruct c as [pt [| |]]; reflexivity).
  rewrite (get_all_piece_move_keys_loop_ext (raw_moves (swap_colors m))
             (raw_moves m)); [reflexivity|].
  intros k _. apply raw_moves_swap, Hm.
Qed.

(* Without pawns every generator is symmetric in the colors, and so is the
   answer of [can_be_captured] for every cell. *)
Lemma no_pawns_kings_agree m : no_pawns m -> kings_agree m.
Proof. intros Hm k c _ _. apply can_be_captured_swap, Hm. Qed.

Lemma contribution_swap m k c :
  kings_agree m ->
  m !! k = Some c ->
  contribution (swap_colors m) (k, swap_cell c) = - contribution m (k, c).
Proof.
  intros Hm Hc. unfold contribution, capturable. simpl.
  destruct (piece_color c); simpl; [reflexivity| |];
    case_bool_decide as Hk; try lia;
    rewrite (Hm k c Hc Hk);
    destruct (Board.can_be_captured m k) as [[|]| |]; lia.
Qed.

Lemma Zsum_contribution_swap m :
  kings_agree m ->
  Zsum (contribution (swap_colors m) <$> Board.entries (swap_colors m))
  = - Zsum (contribution m <$> Board.entries m).
Proof.
  intros Hm. rewrite entries_swap.
  assert (G : forall es, (forall k c, (k, c) ∈ es -> m !! k = Some c) ->
    Zsum (contribution (swap_colors m)
            <$> ((fun kc : Z * Cell => (kc.1, swap_cell kc.2)) <$> es))
    = - Zsum (contribution m <$> es)).
  { induction es as [|[k c] es IH]; intros Hes; [reflexivity|].
    rewrite !fmap_cons. cbn [Zsum fst snd].
    rewrite IH by (intros k' c' H; apply Hes; right; exact H).
    rewrite (contribution_swap m k c Hm) by (apply Hes; left).
    lia. }
  apply G. intros k c. apply elem_of_entries.
Qed.

End Swap.

(** C8, as stated, fails when a pawn gives check: a black pawn on (4,5)
    attacks the white king on (5,5), but after the swap the white pawn on
    (4,5) captures upwards and no longer attacks the black king. *)
Lemma evaluate_not_antisymmetric :
  Board.evaluate king_and_pawn = Ok (- 101)
  /\ Board.evaluate (swap_colors king_and_pawn) = Ok 1.
Proof. split; vm_compute; reflexivity. Qed.

(** C8, amended.  For every board on which each king can be captured after
    the swap of the colors exactly when it can be captured before it (keys in
    range, at most 2^20 cells), [evaluate] of the board with every piece's
    color swapped is the negation of [evaluate] of the board.  Pawns may
    stand anywhere, as long as the swap changes no check. *)
Theorem evaluate_antisymmetric_when_kings_agree (b : BoardMap) :
  keys_in_range b ->
  Z.of_nat (size b) <= 2 ^ 20 ->
  kings_agree b ->
  exists v, Board.evaluate b = Ok v
            /\ Board.evaluate (swap_colors b) = Ok (- v).
Proof.
  intros Hm Hsize Hp. exists (Zsum (contribution b <$> Board.entries b)).
  assert (B : forall m, Z.of_nat (size m) <= 2 ^ 20 ->
    Int32.wrap (Zsum (contribution m <$> Board.entries m))
    = Zsum (contribution m <$> Board.entries m)).
  { intros m Hs. apply wrap_small.
    pose proof (Zsum_bound (contribution m) (Board.entries m)
                  (contribution_bound m)) as B.
    rewrite length_entries in B. lia. }
  split.
  - rewrite evaluate_wrapped_sum by exact Hm. f_equal. apply B, Hsize.
  - rewrite evaluate_wrapped_sum by (apply keys_in_range_swap, Hm).
    rewrite B by (rewrite size_swap; exact Hsize).
    rewrite Zsum_contribution_swap by exact Hp. reflexivity.
Qed.

Lemma evaluate_antisymmetric_when_kings_agree_witness :
  exists v, Board.evaluate king_and_idle_pawn = Ok v
            /\ Board.evaluate (swap_colors king_and_idle_pawn) = Ok (- v).
Proof.
  apply (evaluate_antisymmetric_when_kings_agree king_and_idle_pawn).
  - apply (bool_decide_unpack _). vm_compute. exact I.
  - vm_compute. discriminate.
  - intros k c Hc Hk.
    assert (Hin : (k, c) ∈ Board.entries king_and_idle_pawn)
      by (apply elem_of_entries; exact Hc).
    clear Hc. vm_compute in Hin.
    repeat (apply elem_of_cons in Hin as [Hin|Hin];
            [injection Hin as -> ->;
             first [discriminate Hk | vm_compute; reflexivity]|]).
    inversion Hin.
Defined.

(** ** The legality filter *)

Section Filter.

Implicit Types (m in_board self : BoardMap) (k key : Z) (c cell : Cell)
               (l : list Z).

Lemma to_position_key_to_position key :
  0 <= key < 2 ^ 30 ->
  Board.to_position_key_pos (Board.to_position key) = key.
Proof.
  intros Hk.
  unfold Board.to_position_key_pos, Board.to_position, Board.to_position_key,
    Board.get_x, Board.get_y, Int32.add, Int32.shl, Int32.shr. simpl.
  change 255 with (Z.ones 8).
  rewrite Z.land_ones, Z.shiftl_mul_pow2, Z.shiftr_div_pow2 by lia.
  change (2 ^ 8) with 256.
  pose proof (Z.div_mod key 256 ltac:(lia)).
  pose proof (Z.mod_pos_bound key 256 ltac:(lia)).
  rewrite (wrap_small (key `div` 256 * 256)) by lia.
  rewrite wrap_small by lia. lia.
Qed.

Lemma opposite_not_same c cell :
  CellOps.has_piece_of_opposite_color c cell = true ->
  CellOps.has_piece_of_same_color c cell = false.
Proof.
  unfold CellOps.has_piece_of_opposite_color, CellOps.has_piece_of_same_color.
  destruct (bool_decide (piece_color c = piece_color cell)); simpl.
  - rewrite andb_false_r. discriminate.
  - intros _. apply andb_false_r.
Qed.

Lemma empty_not_same c cell :
  CellOps.has_piece c = false ->
  CellOps.has_piece_of_same_color c cell = false.
Proof.
  unfold CellOps.has_piece, CellOps.has_piece_of_same_color.
  intros ->. reflexivity.
Qed.

Lemma add_if_valid_target m l key cell can_take k :
  k ∈ Board.add_if_valid m l key cell can_take -> k ∈ l \/ target m cell k.
Proof.
  rewrite elem_of_add_if_valid.
  intros [H|(-> & c & Hc & [Hp|[Ho _]])]; [left; exact H|right..];
    exists c; split; auto using empty_not_same, opposite_not_same.
Qed.

Lemma add_pawn_take_if_valid_target m l key cell k :
  k ∈ Board.add_pawn_take_if_valid m l key cell -> k ∈ l \/ target m cell k.
Proof.
  rewrite elem_of_add_pawn_take_if_valid.
  intros [H|(-> & c & Hc & Ho)]; [left; exact H|right].
  exists c. split; auto using opposite_not_same.
Qed.

Lemma slide_target fuel m fn cell pos l r k :
  Board.slide fuel m fn cell pos l = Ok r ->
  k ∈ r -> k ∈ l \/ target m cell k.
Proof.
  revert pos l. induction fuel as [|fuel IH]; intros pos l; simpl;
    [discriminate|].
  destruct (m !! pos) as [c|] eqn:Hpos.
  - destruct (CellOps.has_piece c) eqn:Hp.
    + destruct (CellOps.has_piece_of_same_color c cell) eqn:Hs.
      * intros [= <-]. auto.
      * intros [= <-] [->|H]%elem_of_cons; [right; exists c|left]; auto.
    + intros Hr Hk. destruct (IH _ _ Hr Hk) as [[->|H]%elem_of_cons|H].
      * right. exists c. auto using empty_not_same.
      * left. exact H.
      * right. exact H.
  - intros [= <-]. auto.
Qed.

Lemma add_valid_moves_target m l key fns cell r k :
  Board.add_valid_moves m l key fns cell = Ok r ->
  k ∈ r -> k ∈ l \/ target m cell k.
Proof.
  revert l. induction fns as [|fn fns IH]; intros l;
    cbn [Board.add_valid_moves].
  - intros [= <-]. auto.
  - destruct (Board.slide _ m fn cell (fn key) l) as [l'| |] eqn:Hs;
      cbn [mbind outcome_bind]; try discriminate.
    intros Hr Hk. destruct (IH _ Hr Hk) as [H|H]; [|right; exact H].
    exact (slide_target _ _ _ _ _ _ _ _ Hs H).
Qed.

Lemma piece_moves_target m key cell l k :
  Board.piece_moves m key cell = Ok l -> k ∈ l -> target m cell k.
Proof.
  unfold Board.piece_moves. destruct (piece cell).
  - intros [= <-] H. inversion H.
  - intros [= <-]. unfold Board.add_pawn_moves.
    destruct (Board.pawn_directions (piece_color cell))
      as [[[fn_move fn_take_1] fn_take_2]|]; [|intros H; inversion H].
    intros [[H|H]%add_pawn_take_if_valid_target|H]%add_pawn_take_if_valid_target;
      try exact H.
    destruct (m !! fn_move key) as [c1|]; [|inversion H].
    destruct (negb (CellOps.has_piece c1) && Board.is_initial_pawn_cell key cell).
    + apply add_if_valid_target in H as [H|H]; [|exact H].
      apply add_if_valid_target in H as [H|H]; [inversion H|exact H].
    + apply add_if_valid_target in H as [H|H]; [inversion H|exact H].
  - intros [= <-]. unfold Board.add_knight_moves. intros H.
    repeat (apply add_if_valid_target in H as [H|H]; [|exact H]).
    inversion H.
  - unfold Board.add_bishop_moves. intros Hr Hk.
    destruct (add_valid_moves_target _ _ _ _ _ _ _ Hr Hk) as [H|H];
      [inversion H|exact H].
  - unfold Board.add_rook_moves. intros Hr Hk.
    destruct (add_valid_moves_target _ _ _ _ _ _ _ Hr Hk) as [H|H];
      [inversion H|exact H].
  - unfold Board.add_queen_moves, Board.add_bishop_moves, Board.add_rook_moves.
    destruct (Board.add_valid_moves m [] key Board.bishop_fns cell)
      as [l1| |] eqn:H1; cbn [mbind outcome_bind]; try discriminate.
    intros Hr Hk.
    destruct (add_valid_moves_target _ _ _ _ _ _ _ Hr Hk) as [H|H];
      [|exact H].
    destruct (add_valid_moves_target _ _ _ _ _ _ _ H1 H) as [H'|H'];
      [inversion H'|exact H'].
  - intros [= <-]. unfold Board.add_king_moves, Board.king_fns. simpl.
    intros H.
    repeat (apply add_if_valid_target in H as [H|H]; [|exact H]).
    inversion H.
Qed.

(* What the king search returns. *)
Lemma find_king_key_spec in_board ks kk :
  Board.find_king_key in_board ks = Ok kk ->
  (kk ∈ ks /\ exists c, in_board !! kk = Some c /\ piece c = king)
  \/ (kk = -1 /\ forall k, k ∈ ks ->
                   exists c, in_board !! k = Some c /\ piece c <> king).
Proof.
  induction ks as [|k ks IH]; simpl.
  - intros [= <-]. right. split; [reflexivity|]. intros k H. inversion H.
  - unfold Board.deref. destruct (in_board !! k) as [c|] eqn:Hc; simpl;
      [|discriminate].
    case_bool_decide as Hking.
    + intros [= <-]. left. split; [left|]. eauto.
    + intros H. destruct (IH H) as [[Hin Hc']|[-> Hall]].
      * left. split; [right; exact Hin | exact Hc'].
      * right. split; [reflexivity|].
        intros k' [->|Hk']%elem_of_cons; [eauto | apply Hall, Hk'].
Qed.

(* A key survives the filter only if the king is safe after the move. *)
Lemma filter_moves_kept self key cell king_key l acc r k :
  Board.filter_moves self key cell king_key l acc = Ok r ->
  k ∈ r ->
  k ∈ acc
  \/ (k ∈ l
      /\ Board.can_be_captured_in self
           (Board.move_piece_in (Board.copy_board_map self)
              (Board.to_position key) (Board.to_position k)).1
           (if bool_decide (piece cell = king) then k else king_key)
         = Ok false).
Proof.
  revert acc. induction l as [|k0 l IH]; intros acc;
    cbn [Board.filter_moves].
  - intros [= <-] H. left. exact H.
  - intros Hr Hk.
    destruct (Board.can_be_captured_in self
                (Board.move_piece_in (Board.copy_board_map self)
                   (Board.to_position key) (Board.to_position k0)).1
                (if bool_decide (piece cell = king) then k0 else king_key))
      as [captured| |] eqn:Hcap;
      cbn [mbind outcome_bind] in Hr; try discriminate.
    destruct (IH _ Hr Hk) as [H|[H1 H2]].
    + destruct captured; simpl in H.
      * left. exact H.
      * apply elem_of_cons in H as [->|H]; [right|left; exact H].
        split; [left | exact Hcap].
    + right. split; [right; exact H1 | exact H2].
Qed.

End Filter.

(** X23. On the live board, [get_valid_moves(key)] keeps the king safe.  Let
    the board hold exactly one king of the mover's color.  Take any cell of
    that color and any key of its filtered move list, and play the move on a
    copy of the board.  Then the copy still holds exactly one king of that
    color, and [can_be_captured] answers [false] for the cell it stands
    on. *)
Theorem legal_moves_keep_king_safe (self : BoardMap) (key king_key : Z)
    (cell : Cell) (moves : list Z) (k : Z) :
  keys_in_range self ->
  self !! key = Some cell ->
  piece_color cell <> absent ->
  self !! king_key = Some (mkCell king (piece_color cell)) ->
  (forall k', self !! k' = Some (mkCell king (piece_color cell)) -> k' = king_key) ->
  Board.get_valid_moves self key = Ok moves ->
  k ∈ moves ->
  let after := (Board.move_piece (Board.copy_board_map self)
                  (Board.to_position key) (Board.to_position k)).1 in
  exists final_king_key,
    after !! final_king_key = Some (mkCell king (piece_color cell))
    /\ (forall k', after !! k' = Some (mkCell king (piece_color cell)) ->
                   k' = final_king_key)
    /\ Board.can_be_captured after final_king_key = Ok false.
Proof.
  intros Hm Hcell Hcol Hking Huniq Hmoves Hk after.
  unfold Board.get_valid_moves, Board.get_valid_moves_in in Hmoves.
  destruct (Board.candidate_moves self self key)
    as [[[cell' l] kk]| |] eqn:Hcand; cbn [mbind outcome_bind] in Hmoves;
    try discriminate.
  apply candidate_moves_ok in Hcand as (Hcell' & Hl & Hkk).
  assert (cell' = cell) by congruence. subst cell'.
  (* the king search finds the king *)
  assert (kk = king_key) as ->.
  { apply find_king_key_spec in Hkk as [[Hin (c & Hc & Hpc)]|[_ Hall]].
    - apply elem_of_get_piece_keys_in in Hin as (c' & Hc' & Hcol').
      apply Huniq. rewrite Hc. f_equal.
      assert (c' = c) by congruence. subst c'.
      destruct c; simpl in *; congruence.
    - destruct (Hall king_key) as (c & Hc & Hpc).
      + apply elem_of_get_piece_keys_in. eauto.
      + rewrite Hking in Hc. injection Hc as <-. contradiction. }
  assert (Hkr : (king_key =? -1) = false).
  { pose proof (Hm _ _ Hking) as R. simpl in R. lia. }
  rewrite Hkr in Hmoves. cbn [orb] in Hmoves.
  (* the move passed the filter *)
  apply (filter_moves_kept _ _ _ _ _ _ _ _ Hmoves) in Hk as [Hk|[Hk Hsafe]];
    [inversion Hk|].
  destruct (piece_moves_target _ _ _ _ _ Hl Hk) as (ck & Hck & Hsame).
  assert (Hkey : Board.to_position_key_pos (Board.to_position key) = key)
    by (apply to_position_key_to_position; exact (Hm _ _ Hcell)).
  assert (Hkk' : Board.to_position_key_pos (Board.to_position k) = k)
    by (apply to_position_key_to_position; exact (Hm _ _ Hck)).
  assert (Hafter : after = <[k := cell]> (<[key := mkCell none absent]> self)).
  { subst after. unfold Board.move_piece. rewrite copy_board_map_id.
    rewrite (move_piece_in_valid _ _ _ cell) by (rewrite ?Hkey, ?Hkk'; eauto).
    simpl. rewrite Hkey, Hkk'. destruct cell; reflexivity. }
  fold (Board.move_piece (Board.copy_board_map self)
          (Board.to_position key) (Board.to_position k)) in Hsafe.
  fold after in Hsafe.
  rewrite can_be_captured_in_self in Hsafe
    by (rewrite Hafter, !dom_insert_L;
        apply (elem_of_dom_2 (D := gset Z)) in Hcell, Hck; set_solver).
  (* the target is not the king itself *)
  assert (Hne : k <> king_key).
  { intros ->. rewrite Hking in Hck. injection Hck as <-.
    clear -Hsame Hcol. destruct cell as [pt [| |]]; simpl in *;
      [contradiction| |]; vm_compute in Hsame; discriminate Hsame. }
  exists (if bool_decide (piece cell = king) then k else king_key).
  split; [|split; [|exact Hsafe]].
  - rewrite Hafter. case_bool_decide as Hp.
    + rewrite lookup_insert_eq. destruct cell; simpl in *; congruence.
    + rewrite lookup_insert_ne by exact Hne.
      rewrite lookup_insert_ne; [exact Hking|].
      intros ->. rewrite Hking in Hcell. injection Hcell as Hc.
      apply Hp. rewrite <- Hc. reflexivity.
  - intros k'. rewrite Hafter, !lookup_insert.
    destruct (decide (k = k')) as [<-|Hk'].
    + intros [= Hc]. rewrite bool_decide_eq_true_2; [reflexivity|].
      rewrite Hc. reflexivity.
    + destruct (decide (key = k')) as [<-|Hkey']; [discriminate|].
      intros Hk'king. apply Huniq in Hk'king as ->.
      case_bool_decide as Hp; [|reflexivity].
      destruct Hkey'. apply Huniq. rewrite Hcell.
      destruct cell; simpl in *; congruence.
Qed.

Lemma legal_moves_keep_king_safe_witness :
  Board.get_valid_moves king_and_rook 1285
  = Ok [1541; 1029; 1540; 1028; 1542; 1030; 1539; 1027; 1796; 772]
  /\ exists final_king_key,
       (Board.move_piece (Board.copy_board_map king_and_rook)
          (Board.to_position 1285) (Board.to_position 1541)).1 !! final_king_key
       = Some (mkCell king white)
       /\ (forall k',
             (Board.move_piece (Board.copy_board_map king_and_rook)
                (Board.to_position 1285) (Board.to_position 1541)).1 !! k'
             = Some (mkCell king white) -> k' = final_king_key)
       /\ Board.can_be_captured
            (Board.move_piece (Board.copy_board_map king_and_rook)
               (Board.to_position 1285) (Board.to_position 1541)).1
            final_king_key = Ok false.
Proof.
  split; [vm_compute; reflexivity|].
  apply (legal_moves_keep_king_safe king_and_rook 1285 1285 (mkCell king white)
           [1541; 1029; 1540; 1028; 1542; 1030; 1539; 1027; 1796; 772] 1541).
  - apply (bool_decide_unpack _). vm_compute. exact I.
  - vm_compute. reflexivity.
  - simpl. discriminate.
  - vm_compute. reflexivity.
  - intros k' Hk'.
    assert (Hin : (k', mkCell king white) ∈ Board.entries king_and_rook)
      by (apply elem_of_entries; exact Hk').
    vm_compute in Hin.
    repeat (apply elem_of_cons in Hin as [Hin|Hin]; [congruence|]).
    inversion Hin.
  - vm_compute. reflexivity.
  - left.
Defined.

(** C3, evaluated on the code.  The live board holds a lone white king on
    (5,5); the board handed in as [in_board] is a copy of it on which a black
    rook was placed on (5,8).  [get_valid_moves(in_board, key, false)] takes
    the candidates of the king from [in_board], but it plays each of them on
    [copy_board_map()], the copy of the live board, where there is no rook.
    So it keeps the two steps along the rook's file, (5,6) and (5,4), and
    after either of them the king on [in_board] can be captured.  The same
    query on the board itself drops both. *)
Theorem filter_plays_moves_on_the_live_board :
  Board.get_valid_moves_in king_on_5_5 king_and_rook 1285 false
  = Ok [1286; 1284; 1541; 1029; 1540; 1028; 1542; 1030; 1539; 1027; 1796; 772]
  /\ (Board.move_piece_in (Board.copy_board_map king_and_rook)
        (Board.to_position 1285) (Board.to_position 1286)).1 !! 1286
     = Some (mkCell king white)
  /\ Board.can_be_captured_in king_on_5_5
       (Board.move_piece_in (Board.copy_board_map king_and_rook)
          (Board.to_position 1285) (Board.to_position 1286)).1 1286
     = Ok true
  /\ (Board.move_piece_in (Board.copy_board_map king_and_rook)
        (Board.to_position 1285) (Board.to_position 1284)).1 !! 1284
     = Some (mkCell king white)
  /\ Board.can_be_captured_in king_on_5_5
       (Board.move_piece_in (Board.copy_board_map king_and_rook)
          (Board.to_position 1285) (Board.to_position 1284)).1 1284
     = Ok true
  /\ Board.get_valid_moves king_and_rook 1285
     = Ok [1541; 1029; 1540; 1028; 1542; 1030; 1539; 1027; 1796; 772].
Proof. repeat split; vm_compute; reflexivity. Qed.

(** ** [get_valid_moves] returns on every cell of a board *)

Section Totality.

Implicit Types (m self : BoardMap) (k key : Z) (c cell : Cell) (l : list Z).

Lemma filter_moves_returns self key cell king_key l acc :
  keys_in_range self ->
  is_Some (self !! king_key) ->
  (forall k, k ∈ l -> is_Some (self !! k)) ->
  exists r, Board.filter_moves self key cell king_key l acc = Ok r.
Proof.
  intros Hm Hking. revert acc.
  induction l as [|k l IH]; intros acc Hl; cbn [Board.filter_moves]; [eauto|].
  set (after := (Board.move_piece_in (Board.copy_board_map self)
                   (Board.to_position key) (Board.to_position k)).1).
  assert (Hdom : dom after = dom self).
  { subst after. rewrite move_piece_in_dom, copy_board_map_id. reflexivity. }
  rewrite can_be_captured_in_self by (rewrite Hdom; reflexivity).
  destruct (can_be_captured_returns after
              (if bool_decide (piece cell = king) then k else king_key))
    as [captured ->].
  - apply (keys_in_range_same_dom self); [symmetry; exact Hdom | exact Hm].
  - apply elem_of_dom. rewrite Hdom. apply elem_of_dom.
    destruct (bool_decide (piece cell = king)); [apply Hl; left | exact Hking].
  - cbn [mbind outcome_bind]. apply IH. intros k' Hk'. apply Hl. right. exact Hk'.
Qed.

Lemma get_valid_moves_returns self key :
  keys_in_range self -> is_Some (self !! key) ->
  exists moves, Board.get_valid_moves self key = Ok moves.
Proof.
  intros Hm [cell Hcell].
  unfold Board.get_valid_moves, Board.get_valid_moves_in, Board.candidate_moves.
  unfold Board.deref at 1. rewrite Hcell. cbn [mbind outcome_bind].
  destruct (piece_moves_returns self key cell Hm) as [l Hl]. rewrite Hl.
  cbn [mbind outcome_bind].
  destruct (find_king_key_returns self
              (Board.get_piece_keys self (piece_color cell))) as [kk Hkk].
  { intros k. apply get_piece_keys_valid. }
  rewrite Hkk. cbn [mbind outcome_bind orb].
  destruct (kk =? -1) eqn:Hneg; [eauto|].
  apply filter_moves_returns; [exact Hm| |].
  - apply find_king_key_spec in Hkk as [[_ (c & Hc & _)]|[-> _]];
      [eauto | discriminate Hneg].
  - intros k Hk. destruct (piece_moves_target _ _ _ _ _ Hl Hk) as (ck & Hck & _).
    eauto.
Qed.

End Totality.

(** ** The random AI *)

Section RandomAIFacts.

Variable RandRange : nat -> Z -> Z -> Z.

Lemma list_at_elem_of (l : list Z) (Index v : Z) :
  ChessGod.list_at l Index = Ok v -> v ∈ l.
Proof.
  unfold ChessGod.list_at. destruct (Index <? 0); [discriminate|].
  destruct (l !! Z.to_nat Index) as [v'|] eqn:Hv; [|discriminate].
  intros [= <-]. apply list_elem_of_lookup. eauto.
Qed.

(* With no piece that can move, no turn of the loop leaves it. *)
Lemma random_move_loop_stuck (ActiveBoard : BoardMap) (PieceKeys : list Z) :
  (forall k, k ∈ PieceKeys -> Board.get_valid_moves ActiveBoard k = Ok []) ->
  forall fuel draws,
    returned (ChessGod.random_move_loop RandRange fuel draws ActiveBoard PieceKeys)
    = false.
Proof.
  intros Hstuck. induction fuel as [|fuel IH]; intros draws;
    cbn [ChessGod.random_move_loop]; [reflexivity|].
  destruct (ChessGod.list_at PieceKeys _) as [k| |] eqn:Hk;
    cbn [mbind outcome_bind]; try reflexivity.
  rewrite (Hstuck k (list_at_elem_of _ _ _ Hk)). cbn [mbind outcome_bind].
  rewrite bool_decide_eq_false_2 by (simpl; lia). apply IH.
Qed.

(* A side without pieces gets the empty result at once. *)
Lemma random_ai_without_pieces (fuel : nat) (ActiveBoard : BoardMap)
    (IsWhiteAI : bool) :
  Board.get_piece_keys ActiveBoard (ChessGod.player_color IsWhiteAI) = [] ->
  ChessGod.CalculateRandomAIMove RandRange fuel ActiveBoard IsWhiteAI = Ok [].
Proof.
  intros H. unfold ChessGod.CalculateRandomAIMove. rewrite H. reflexivity.
Qed.

End RandomAIFacts.

(** C5, evaluated on the code.  White owns one piece, a pawn without a legal
    move.  Whatever the random draws are and however long the loop is run,
    the random AI does not return: a draw outside the list is a fault, and
    every draw inside it starts the next turn of the loop. *)
Theorem random_ai_never_returns_without_moves
    (RandRange : nat -> Z -> Z -> Z) (fuel : nat) :
  Board.get_piece_keys pawn_on_0_5 white = [5]
  /\ Board.get_valid_moves pawn_on_0_5 5 = Ok []
  /\ returned (ChessGod.MakeAIMove RandRange fuel pawn_on_0_5 true Random) = false
  /\ ChessGod.MakeAIMove (fun _ Min _ => Min) fuel pawn_on_0_5 true Random
     = OutOfFuel.
Proof.
  assert (Hkeys : Board.get_piece_keys pawn_on_0_5 white = [5])
    by (vm_compute; reflexivity).
  assert (Hmoves : Board.get_valid_moves pawn_on_0_5 5 = Ok [])
    by (vm_compute; reflexivity).
  assert (Hstuck : forall k, k ∈ [5] -> Board.get_valid_moves pawn_on_0_5 k = Ok []).
  { intros k [->|H]%elem_of_cons; [exact Hmoves | inversion H]. }
  split; [exact Hkeys|]. split; [exact Hmoves|].
  unfold ChessGod.MakeAIMove, ChessGod.CalculateRandomAIMove.
  change (ChessGod.player_color true) with white. rewrite Hkeys.
  rewrite bool_decide_eq_false_2 by discriminate. split.
  - apply random_move_loop_stuck, Hstuck.
  - generalize 0%nat. induction fuel as [|fuel IH]; intros draws;
      cbn [ChessGod.random_move_loop]; [reflexivity|].
    change (ChessGod.list_at [5] 0) with (Ok (A := Z) 5).
    cbn [mbind outcome_bind]. rewrite Hmoves. cbn [mbind outcome_bind].
    rewrite bool_decide_eq_false_2 by (simpl; lia). apply IH.
Qed.

(** ** The scenarios of the specification, computed *)

(* A white king on (5,5) and a black rook on (5,8): the king is attacked,
   and none of its moves stays on the rook's file. *)
Example rook_gives_check :
  Board.can_be_captured king_and_rook 1285 = Ok true
  /\ Board.get_valid_moves king_and_rook 1285
     = Ok [1541; 1029; 1540; 1028; 1542; 1030; 1539; 1027; 1796; 772]
  /\ Board.get_valid_moves_in king_and_rook king_and_rook 1285 true
     = Ok [772; 1796; 1027; 1539; 1030; 1542; 1028; 1540; 1029; 1541; 1284;
           1286]
  /\ Board.get_valid_moves king_and_rook 1288
     = Ok [1285; 1286; 1287; 1290; 1289; 3; 260; 517; 774; 1031; 2563; 2308;
           2053; 1798; 1543; 776; 1032; 1800; 1544].
Proof. repeat split; vm_compute; reflexivity. Qed.

(* A white pawn on a starting key steps one or two cells while the way is
   free, and not at all once the cell ahead is taken. *)
Example pawn_steps :
  Board.get_valid_moves pawn_on_1_0 256 = Ok [258; 257]
  /\ Board.get_valid_moves
       (Board.set_piece pawn_on_1_0 (mkPosition 1 1) knight white).1 256
     = Ok [].
Proof. split; vm_compute; reflexivity. Qed.

(** * Further properties *)

(** ** Keys and coordinates *)

Section Coordinates.

Lemma to_position_key_plain (x y : Z) :
  - 2 ^ 22 <= x <= 2 ^ 22 -> - 2 ^ 10 <= y <= 2 ^ 10 ->
  Board.to_position_key x y = 256 * x + y.
Proof.
  intros Hx Hy. unfold Board.to_position_key, Int32.add, Int32.shl.
  rewrite Z.shiftl_mul_pow2 by lia. change (2 ^ 8) with 256.
  rewrite (wrap_small (x * 256)) by lia. rewrite wrap_small by lia. lia.
Qed.

Lemma get_x_plain (x y : Z) : 0 <= y < 256 -> Board.get_x (256 * x + y) = x.
Proof.
  intros Hy. unfold Board.get_x, Int32.shr.
  rewrite Z.shiftr_div_pow2 by lia. change (2 ^ 8) with 256.
  symmetry. apply (Z.div_unique_pos _ 256 x y); lia.
Qed.

Lemma get_y_plain (x y : Z) : 0 <= y < 256 -> Board.get_y (256 * x + y) = y.
Proof.
  intros Hy. unfold Board.get_y. change 255 with (Z.ones 8).
  rewrite Z.land_ones by lia. change (2 ^ 8) with 256.
  symmetry. apply (Z.mod_unique_pos _ 256 x y); lia.
Qed.

End Coordinates.

(** X1. Packing a column x and a row y of one byte into a key and unpacking
    the key gives x and y back, for every column that fits the upper 24
    bits. *)
Theorem position_key_round_trip (x y : Z) :
  - 2 ^ 23 <= x < 2 ^ 23 ->
  0 <= y < 256 ->
  Board.to_position (Board.to_position_key x y) = mkPosition x y.
Proof.
  intros Hx Hy.
  assert (E : Board.to_position_key x y = 256 * x + y).
  { unfold Board.to_position_key, Int32.add, Int32.shl.
    rewrite Z.shiftl_mul_pow2 by lia. change (2 ^ 8) with 256.
    rewrite (wrap_small (x * 256)) by lia. rewrite wrap_small by lia. lia. }
  unfold Board.to_position. rewrite E, get_x_plain, get_y_plain by exact Hy.
  reflexivity.
Qed.

Lemma position_key_round_trip_witness :
  Board.to_position (Board.to_position_key 10 5) = mkPosition 10 5.
Proof. apply (position_key_round_trip 10 5); lia. Defined.

(** X2. Unpacking any 32-bit key into a position and packing the position
    gives the key back; the row it unpacks to is a byte. *)
Theorem key_position_round_trip (key : Z) :
  - 2 ^ 31 <= key < 2 ^ 31 ->
  Board.to_position_key_pos (Board.to_position key) = key
  /\ 0 <= pos_y (Board.to_position key) < 256.
Proof.
  intros Hk.
  unfold Board.to_position_key_pos, Board.to_position, Board.to_position_key,
    Board.get_x, Board.get_y, Int32.add, Int32.shl, Int32.shr. simpl.
  change 255 with (Z.ones 8).
  rewrite Z.land_ones, Z.shiftl_mul_pow2, Z.shiftr_div_pow2 by lia.
  change (2 ^ 8) with 256.
  pose proof (Z.div_mod key 256 ltac:(lia)).
  pose proof (Z.mod_pos_bound key 256 ltac:(lia)).
  split; [|lia].
  rewrite (wrap_small (key `div` 256 * 256)) by lia.
  rewrite wrap_small by lia. lia.
Qed.

Lemma key_position_round_trip_witness :
  Board.to_position_key_pos (Board.to_position (- 3)) = - 3
  /\ 0 <= pos_y (Board.to_position (- 3)) < 256.
Proof. apply (key_position_round_trip (- 3)). lia. Defined.

(** ** The directions *)

Section Directions.

Variables x y : Z.
Hypothesis Hx : - 2 ^ 20 <= x <= 2 ^ 20.
Hypothesis Hy : 2 <= y <= 253.

Lemma step_of_range (d : Direction) :
  x - 2 <= (step_of d (x, y)).1 <= x + 2
  /\ y - 2 <= (step_of d (x, y)).2 <= y + 2.
Proof.
  destruct d; simpl;
    repeat match goal with
      | |- context [if ?b then _ else _] => destruct b
      end; simpl; lia.
Qed.

Lemma direction_fn_step_of (d : Direction) :
  direction_fn d (key_of (x, y)) = key_of (step_of d (x, y)).
Proof.
  pose proof (step_of_range d) as [R1 R2].
  unfold key_of.
  rewrite (to_position_key_plain (step_of d (x, y)).1 (step_of d (x, y)).2)
    by lia.
  simpl fst; simpl snd. rewrite (to_position_key_plain x y) by lia.
  clear R1 R2.
  destruct d; simpl direction_fn; unfold_moves;
    rewrite ?get_x_plain by lia; change Board.median with 5;
    unfold Int32.rem;
    change (Int32.sub 5 1) with 4; change (Int32.add 5 1) with 6;
    simpl step_of.
  all: try (destruct (Z.eqb_spec x 4) as [->|];
            [change (Z.rem 4 2 =? 0) with true; change (4 <? 5) with true|]).
  all: try (destruct (Z.eqb_spec x 6) as [->|];
            [change (Z.rem 6 2 =? 0) with true; change (6 <=? 5) with false;
             change (6 <? 5) with false|]).
  all: repeat match goal with
         | |- context [if ?b then _ else _] => destruct b eqn:?
         end; simpl fst; simpl snd;
       try (match goal with
            | H : (x `rem` 2 =? 0) = true |- _ =>
                assert (E5 : x = 5) by lia; rewrite E5 in H;
                vm_compute in H; discriminate H
            end);
       wrap_out; lia.
Qed.

End Directions.

(** X3. From a cell (x, y) whose row is at least two away from the ends of
    the byte, each of the twelve direction functions arrives at the cell that
    the comment beside its [return] names; the far diagonals do so whatever
    the parity of the column is. *)
Theorem direction_steps_in_coordinates (d : Direction) (x y : Z) :
  - 2 ^ 20 <= x <= 2 ^ 20 ->
  2 <= y <= 253 ->
  Board.to_position (direction_fn d (Board.to_position_key x y))
  = mkPosition (step_of d (x, y)).1 (step_of d (x, y)).2.
Proof.
  intros Hx Hy.
  change (Board.to_position_key x y) with (key_of (x, y)).
  rewrite (direction_fn_step_of x y Hx Hy d).
  destruct (step_of_range x y d) as [R1 R2].
  unfold key_of. rewrite to_position_key_plain by lia.
  unfold Board.to_position. rewrite get_x_plain, get_y_plain by lia.
  reflexivity.
Qed.

Lemma direction_steps_in_coordinates_witness :
  Board.to_position
    (direction_fn DiagonallyRight (Board.to_position_key 4 3))
  = mkPosition 6 3.
Proof.
  apply (direction_steps_in_coordinates DiagonallyRight 4 3); lia.
Defined.

Lemma step_of_opposite (d : Direction) (p : Z * Z) :
  step_of (opposite d) (step_of d p) = p.
Proof.
  destruct p as [x y].
  destruct d; simpl;
    repeat match goal with
      | |- context [if ?b then _ else _] => destruct b eqn:?
      end; simpl;
    repeat match goal with
      | |- context [if ?b then _ else _] => destruct b eqn:?
      end; try (f_equal; lia); exfalso; lia.
Qed.

(** X4. From a cell (x, y) with - 2^20 + 2 <= x <= 2^20 - 2 and
    4 <= y <= 251, a step in any of the twelve directions followed by a step
    in the opposite direction returns to the key it started from. *)
Theorem opposite_direction_steps_back (d : Direction) (x y : Z) :
  - 2 ^ 20 + 2 <= x <= 2 ^ 20 - 2 ->
  4 <= y <= 251 ->
  direction_fn (opposite d) (direction_fn d (Board.to_position_key x y))
  = Board.to_position_key x y.
Proof.
  intros Hx Hy.
  change (Board.to_position_key x y) with (key_of (x, y)).
  rewrite (direction_fn_step_of x y) by lia.
  pose proof (step_of_range x y d) as [R1 R2].
  pose proof (step_of_opposite d (x, y)) as E.
  destruct (step_of d (x, y)) as [x' y'] eqn:Hs. simpl in R1, R2.
  rewrite (direction_fn_step_of x' y') by lia. rewrite E. reflexivity.
Qed.

Lemma opposite_direction_steps_back_witness :
  direction_fn (opposite DiagonallyLeft)
    (direction_fn DiagonallyLeft (Board.to_position_key 5 5))
  = Board.to_position_key 5 5.
Proof. apply (opposite_direction_steps_back DiagonallyLeft 5 5); lia. Defined.

(** ** The cells of the hexagon *)

(** X5. For a column x with - 2^22 <= x <= 2^22 and a row y of one byte,
    (x, y) is a valid position of the fresh board exactly when 0 <= x <= 10
    and y <= 5 + min(x, 10 - x). *)
Theorem fresh_board_cells_closed_form (x y : Z) :
  - 2 ^ 22 <= x <= 2 ^ 22 ->
  0 <= y < 256 ->
  Board.is_valid_position_xy Board.new x y = true
  <-> 0 <= x <= 10 /\ y <= 5 + Z.min x (10 - x).
Proof.
  intros Hx Hy. unfold Board.is_valid_position_xy.
  rewrite to_position_key_plain by lia. split.
  - intros H. apply is_valid_position_true, elem_of_map_keys in H.
    set (ks := Board.map_keys Board.new) in H. vm_compute in ks. subst ks.
    repeat (apply elem_of_cons in H as [H|H]; [lia|]).
    inversion H.
  - intros [H1 H2].
    assert (Hxs : x = 0 \/ x = 1 \/ x = 2 \/ x = 3 \/ x = 4 \/ x = 5 \/ x = 6
                  \/ x = 7 \/ x = 8 \/ x = 9 \/ x = 10) by lia.
    assert (Hys : y = 0 \/ y = 1 \/ y = 2 \/ y = 3 \/ y = 4 \/ y = 5 \/ y = 6
                  \/ y = 7 \/ y = 8 \/ y = 9 \/ y = 10) by lia.
    repeat (destruct Hxs as [->|Hxs]); try subst x;
      repeat (destruct Hys as [->|Hys]); try subst y;
      first [ vm_compute; reflexivity | exfalso; lia ].
Qed.

Lemma fresh_board_cells_closed_form_witness :
  Board.is_valid_position_xy Board.new 7 8 = true
  <-> 0 <= 7 <= 10 /\ 8 <= 5 + Z.min 7 (10 - 7).
Proof. apply (fresh_board_cells_closed_form 7 8); lia. Defined.

(** ** Placing and moving pieces *)

(** X6. [set_piece] always returns [false], also when it has placed the
    piece.  On a valid position the cell then holds exactly the given piece
    and color and every other cell is as before; a second placement on the
    same position leaves only the later piece; on an invalid position the
    board is unchanged. *)
Theorem set_piece_overwrites (self : BoardMap) (pos : Position)
    (pt pt' : PieceType) (pc pc' : PieceColor) :
  (Board.set_piece self pos pt pc).2 = false
  /\ (Board.set_piece (Board.set_piece self pos pt pc).1 pos pt' pc').1
     = (Board.set_piece self pos pt' pc').1
  /\ (if Board.is_valid_position_pos self pos
      then (Board.set_piece self pos pt pc).1
           = <[Board.to_position_key_pos pos := mkCell pt pc]> self
      else (Board.set_piece self pos pt pc).1 = self).
Proof.
  unfold Board.set_piece, Board.is_valid_position_pos.
  destruct (self !! Board.to_position_key_pos pos) as [c|] eqn:Hc.
  - rewrite (proj2 (is_valid_position_true _ _)) by eauto.
    rewrite (set_piece_in_valid self pos pt pc) by eauto.
    rewrite (set_piece_in_valid self pos pt' pc') by eauto. simpl.
    rewrite set_piece_in_valid by (rewrite lookup_insert_eq; eauto). simpl.
    rewrite insert_insert_eq. auto.
  - rewrite (proj2 (is_valid_position_false _ _) Hc).
    rewrite (set_piece_in_invalid self pos pt pc) by exact Hc.
    rewrite (set_piece_in_invalid self pos pt' pc') by exact Hc. simpl.
    rewrite set_piece_in_invalid by exact Hc. auto.
Qed.

(** X7. Moving the content of a cell to a different cell that holds neither
    a piece nor a color, the state that [Cell()] and [remove_piece] leave,
    and moving it back restores the board. *)
Theorem move_piece_there_and_back (self : BoardMap) (start goal : Position)
    (src : Cell) :
  self !! Board.to_position_key_pos start = Some src ->
  self !! Board.to_position_key_pos goal = Some (mkCell none absent) ->
  Board.to_position_key_pos start <> Board.to_position_key_pos goal ->
  (Board.move_piece (Board.move_piece self start goal).1 goal start).1 = self.
Proof.
  intros Hs Hg Hne. unfold Board.move_piece.
  rewrite (move_piece_in_valid self start goal src Hs) by eauto. simpl.
  rewrite (move_piece_in_valid _ goal start (mkCell (piece src) (piece_color src))).
  - simpl. apply map_eq. intros k. rewrite !lookup_insert.
    repeat case_decide; subst; try congruence.
    rewrite Hs. destruct src; reflexivity.
  - apply lookup_insert_eq.
  - rewrite lookup_insert_ne by congruence. rewrite lookup_insert_eq. eauto.
Qed.

Lemma move_piece_there_and_back_witness :
  (Board.move_piece
     (Board.move_piece pawn_on_1_1 (mkPosition 1 1) (mkPosition 1 2)).1
     (mkPosition 1 2) (mkPosition 1 1)).1 = pawn_on_1_1.
Proof.
  apply (move_piece_there_and_back pawn_on_1_1 (mkPosition 1 1) (mkPosition 1 2)
           (mkCell pawn white)).
  - vm_compute. reflexivity.
  - vm_compute. reflexivity.
  - vm_compute. discriminate.
Defined.

Lemma session_played b : session b -> played b.
Proof.
  induction 1 as [|b info _ IH|b From To _ IH].
  - constructor.
  - unfold ChessGod.RegisterPiece. constructor; [exact IH| |].
    + destruct (info_Type info); discriminate.
    + destruct (info_TeamID info =? 0); discriminate.
  - unfold ChessGod.MovePiece. constructor. exact IH.
Qed.

(** X8. Every board that a session builds with [StartGame], [RegisterPiece]
    and [MovePiece] has the 91 cells of the fresh board, no more and no
    fewer, and each of its cells carries a color exactly when it carries a
    piece; a piece type outside the six known ones is placed as a pawn, never
    as an empty cell. *)
Theorem session_boards_keep_their_shape (b : BoardMap) :
  session b ->
  dom b = dom Board.new
  /\ size b = 91%nat
  /\ keys_in_range b
  /\ cells_consistent b.
Proof.
  intros Hb. apply session_played in Hb.
  pose proof (played_reachable b Hb) as Hr.
  destruct (reachable_bounds b Hr) as [H1 H2].
  split; [apply reachable_dom, Hr|].
  split; [exact H2|]. split; [exact H1|]. apply played_consistent, Hb.
Qed.

Lemma session_boards_keep_their_shape_witness :
  dom (ChessGod.MovePiece
         (ChessGod.RegisterPiece ChessGod.StartGame (mkFPieceInfo EOther 1 0 0))
         (mkFIntPoint 1 0) (mkFIntPoint 1 2))
  = dom Board.new
  /\ size (ChessGod.MovePiece
         (ChessGod.RegisterPiece ChessGod.StartGame (mkFPieceInfo EOther 1 0 0))
         (mkFIntPoint 1 0) (mkFIntPoint 1 2)) = 91%nat
  /\ keys_in_range (ChessGod.MovePiece
         (ChessGod.RegisterPiece ChessGod.StartGame (mkFPieceInfo EOther 1 0 0))
         (mkFIntPoint 1 0) (mkFIntPoint 1 2))
  /\ cells_consistent (ChessGod.MovePiece
         (ChessGod.RegisterPiece ChessGod.StartGame (mkFPieceInfo EOther 1 0 0))
         (mkFIntPoint 1 0) (mkFIntPoint 1 2)).
Proof.
  apply session_boards_keep_their_shape.
  apply session_move, session_register, session_start.
Defined.

(** ** Piece lists *)

Section PieceKeys.

Lemma StronglySorted_strict (l : list Z) :
  StronglySorted Z.le l -> NoDup l -> StronglySorted Z.lt l.
Proof.
  induction 1 as [|k l Hl IH Hk]; intros Hnd; [constructor|].
  apply NoDup_cons in Hnd as [Hnotin Hnd]. constructor; [auto|].
  rewrite Forall_forall in *. intros k' Hk'.
  specialize (Hk k' Hk'). assert (k <> k') by (intros ->; contradiction). lia.
Qed.

Lemma map_keys_ascending (m : BoardMap) : StronglySorted Z.lt (Board.map_keys m).
Proof.
  apply StronglySorted_strict; [|apply NoDup_map_keys].
  unfold Board.map_keys. apply StronglySorted_merge_sort; apply _.
Qed.

Lemma selected_keys_ascending (m : BoardMap) (pc : PieceColor) (ks : list Z) :
  StronglySorted Z.lt ks ->
  StronglySorted Z.lt
    (fst <$> filter (fun kc : Z * Cell => piece_color kc.2 = pc)
               (omap (fun key => pair key <$> m !! key) ks))
  /\ forall k, k ∈ fst <$> filter (fun kc : Z * Cell => piece_color kc.2 = pc)
                        (omap (fun key => pair key <$> m !! key) ks) -> k ∈ ks.
Proof.
  induction 1 as [|k ks Hks IH Hk]; [split; [constructor|auto]|].
  destruct IH as [IH1 IH2]. unfold omap in *. simpl.
  destruct (m !! k) as [c|]; simpl.
  - rewrite filter_cons. destruct (decide (piece_color (k, c).2 = pc)).
    + rewrite fmap_cons. split.
      * constructor; [exact IH1|]. rewrite Forall_forall in *.
        intros k' Hk'. apply Hk, IH2, Hk'.
      * intros k' [->|Hk']%elem_of_cons; [left | right; apply IH2, Hk'].
    + split; [exact IH1|]. intros k' Hk'. right. apply IH2, Hk'.
  - split; [exact IH1|]. intros k' Hk'. right. apply IH2, Hk'.
Qed.

Lemma StronglySorted_reverse_gt (l : list Z) :
  StronglySorted Z.lt l -> StronglySorted (fun a b => b < a) (reverse l).
Proof.
  induction 1 as [|k l Hl IH Hk]; [constructor|].
  rewrite reverse_cons. apply StronglySorted_app_2.
  - intros x1 x2 H1 [->|H2]%elem_of_cons; [|inversion H2].
    rewrite elem_of_reverse in H1. rewrite Forall_forall in Hk. apply Hk, H1.
  - exact IH.
  - repeat constructor.
Qed.

End PieceKeys.

(** X9. [get_piece_keys] returns exactly the keys of the cells whose color
    is the given one (for [absent]: the cells without a color), each once,
    in strictly descending order of the keys. *)
Theorem get_piece_keys_descending (self : BoardMap) (pc : PieceColor) :
  StronglySorted (fun a b => b < a) (Board.get_piece_keys self pc)
  /\ forall k, k ∈ Board.get_piece_keys self pc
               <-> exists c, self !! k = Some c /\ piece_color c = pc.
Proof.
  split.
  - unfold Board.get_piece_keys. rewrite get_piece_keys_in_filter.
    apply StronglySorted_reverse_gt. unfold Board.entries.
    apply selected_keys_ascending, map_keys_ascending.
  - intros k. apply elem_of_get_piece_keys_in.
Qed.

(** ** Where the pieces go *)

Section Reach.

Implicit Types (m in_board : BoardMap) (k key pos : Z) (c cell : Cell)
               (l r : list Z).

Lemma slide_keeps fuel m fn cell pos l r k :
  Board.slide fuel m fn cell pos l = Ok r -> k ∈ l -> k ∈ r.
Proof.
  revert pos l. induction fuel as [|fuel IH]; intros pos l; simpl;
    [discriminate|].
  destruct (m !! pos) as [c|]; [|intros [= <-]; auto].
  destruct (CellOps.has_piece c).
  - destruct (CellOps.has_piece_of_same_color c cell); intros [= <-] H;
      [exact H | right; exact H].
  - intros Hr H. apply (IH _ _ Hr). right. exact H.
Qed.

(* The keys one run of the loop adds: the cells along the ray from [pos], up
   to and including the first cell that is not empty, unless that cell holds
   a piece of the mover's color. *)
Lemma elem_of_slide fuel m fn cell pos l r k :
  Board.slide fuel m fn cell pos l = Ok r ->
  k ∈ r <->
  k ∈ l \/ exists n : nat,
             k = Nat.iter n fn pos
             /\ (forall i : nat, (i < n)%nat ->
                   exists c, m !! Nat.iter i fn pos = Some c
                             /\ CellOps.has_piece c = false)
             /\ target m cell k.
Proof.
  revert pos l. induction fuel as [|fuel IH]; intros pos l; simpl;
    [discriminate|].
  destruct (m !! pos) as [c|] eqn:Hpos.
  - destruct (CellOps.has_piece c) eqn:Hp.
    + destruct (CellOps.has_piece_of_same_color c cell) eqn:Hs.
      * intros [= <-]. split; [auto|]. intros [H|(n & -> & Hfree & Ht)]; [exact H|].
        destruct n as [|n].
        -- destruct Ht as (c' & Hc' & Hs'). simpl in Hc'. congruence.
        -- destruct (Hfree 0%nat ltac:(lia)) as (c' & Hc' & Hp').
           simpl in Hc'. congruence.
      * intros [= <-]. rewrite elem_of_cons. split.
        -- intros [->|H]; [right|left; exact H].
           exists 0%nat. split; [reflexivity|]. split; [intros i Hi; lia|].
           exists c. auto.
        -- intros [H|(n & -> & Hfree & Ht)]; [right; exact H|].
           destruct n as [|n]; [left; reflexivity|].
           destruct (Hfree 0%nat ltac:(lia)) as (c' & Hc' & Hp').
           simpl in Hc'. congruence.
    + intros Hr. rewrite (IH _ _ Hr), elem_of_cons. split.
      * intros [[->|H]|(n & -> & Hfree & Ht)].
        -- right. exists 0%nat. split; [reflexivity|].
           split; [intros i Hi; lia|]. exists c. auto using empty_not_same.
        -- left. exact H.
        -- right. exists (S n). split; [symmetry; apply Nat.iter_succ_r|].
           split; [|exact Ht]. intros [|i] Hi.
           ++ exists c. auto.
           ++ rewrite Nat.iter_succ_r. apply Hfree. lia.
      * intros [H|(n & -> & Hfree & Ht)]; [left; right; exact H|].
        destruct n as [|n]; [left; left; reflexivity|].
        right. exists n. split; [apply Nat.iter_succ_r|]. split; [|exact Ht].
        intros i Hi. rewrite <- Nat.iter_succ_r. apply Hfree. lia.
  - intros [= <-]. split; [auto|]. intros [H|(n & -> & Hfree & Ht)]; [exact H|].
    destruct n as [|n].
    + destruct Ht as (c' & Hc' & _). simpl in Hc'. congruence.
    + destruct (Hfree 0%nat ltac:(lia)) as (c' & Hc' & _).
      simpl in Hc'. congruence.
Qed.

Lemma elem_of_add_valid_moves m l key fns cell r k :
  Board.add_valid_moves m l key fns cell = Ok r ->
  k ∈ r <-> k ∈ l \/ exists fn, fn ∈ fns /\ slides_to m cell fn key k.
Proof.
  revert l. induction fns as [|fn fns IH]; intros l;
    cbn [Board.add_valid_moves].
  - intros [= <-]. split; [auto|].
    intros [H|(fn & Hfn & _)]; [exact H | inversion Hfn].
  - destruct (Board.slide _ m fn cell (fn key) l) as [l'| |] eqn:Hs;
      cbn [mbind outcome_bind]; try discriminate.
    intros Hr. rewrite (IH _ Hr), (elem_of_slide _ _ _ _ _ _ _ _ Hs). split.
    + intros [[H|(n & -> & Hfree & Ht)]|(fn' & Hfn' & H)].
      * left. exact H.
      * right. exists fn. split; [left|]. exists n.
        split; [symmetry; apply Nat.iter_succ_r|]. split; [|exact Ht].
        intros i Hi. rewrite Nat.iter_succ_r. apply Hfree, Hi.
      * right. exists fn'. split; [right; exact Hfn' | exact H].
    + intros [H|(fn' & Hfn' & (n & -> & Hfree & Ht))]; [left; left; exact H|].
      apply elem_of_cons in Hfn' as [->|Hfn'].
      * left. right. exists n. split; [apply Nat.iter_succ_r|].
        split; [|exact Ht].
        intros i Hi. rewrite <- Nat.iter_succ_r. apply Hfree, Hi.
      * right. exists fn'. split; [exact Hfn'|]. exists n. auto.
Qed.

Lemma elem_of_foldl_add_if_valid m cell key (fns : list (Z -> Z)) l k :
  k ∈ foldl (fun l fn => Board.add_if_valid m l (fn key) cell true) l fns
  <-> k ∈ l \/ exists fn, fn ∈ fns /\ k = fn key /\ lands m cell k.
Proof.
  revert l. induction fns as [|fn fns IH]; intros l; simpl.
  - split; [auto|]. intros [H|(fn & Hfn & _)]; [exact H | inversion Hfn].
  - rewrite IH, elem_of_add_if_valid. split.
    + intros [[H|(-> & c & Hc & H)]|(fn' & Hfn' & H)].
      * left. exact H.
      * right. exists fn. split; [left|]. split; [reflexivity|].
        exists c. split; [exact Hc|]. destruct H as [H|[H _]]; auto.
      * right. exists fn'. split; [right; exact Hfn' | exact H].
    + intros [H|(fn' & Hfn' & -> & (c & Hc & H))]; [left; left; exact H|].
      apply elem_of_cons in Hfn' as [->|Hfn'].
      * left. right. split; [reflexivity|]. exists c. split; [exact Hc|].
        destruct H as [H|H]; auto.
      * right. exists fn'. split; [exact Hfn'|]. split; [reflexivity|].
        exists c. auto.
Qed.

Lemma length_foldl_add_if_valid m cell key (fns : list (Z -> Z)) l :
  (length (foldl (fun l fn => Board.add_if_valid m l (fn key) cell true) l fns)
   <= length l + length fns)%nat.
Proof.
  revert l. induction fns as [|fn fns IH]; intros l; simpl; [lia|].
  etransitivity; [apply IH|].
  unfold Board.add_if_valid. destruct (m !! fn key) as [c|]; [|lia].
  destruct (CellOps.has_piece c);
    [destruct (CellOps.has_piece_of_opposite_color c cell && true)|];
    simpl; lia.
Qed.

Lemma add_knight_moves_foldl m l key cell :
  Board.add_knight_moves m l key cell
  = foldl (fun l fn => Board.add_if_valid m l (fn key) cell true) l knight_jumps.
Proof. reflexivity. Qed.

End Reach.

(** X10. A bishop, rook or queen reaches a key exactly by sliding: the key
    lies some steps along one of the piece's directions, every cell passed on
    the way is empty, and the key itself is a cell without a piece of the
    mover's color.  No sliding piece jumps over a piece or leaves the
    board. *)
Theorem sliders_do_not_jump (in_board : BoardMap) (key : Z) (cell : Cell)
    (l : list Z) (k : Z) :
  in_board !! key = Some cell ->
  piece cell = bishop \/ piece cell = rook \/ piece cell = queen ->
  raw_moves in_board key = Ok l ->
  k ∈ l <-> exists fn, fn ∈ slider_fns (piece cell)
                       /\ slides_to in_board cell fn key k.
Proof.
  intros Hcell Hpt. unfold raw_moves, Board.deref. rewrite Hcell.
  cbn [mbind outcome_bind]. unfold Board.piece_moves.
  assert (E : forall fns r,
             Board.add_valid_moves in_board [] key fns cell = Ok r ->
             k ∈ r <-> exists fn, fn ∈ fns /\ slides_to in_board cell fn key k).
  { intros fns r Hr. rewrite (elem_of_add_valid_moves _ _ _ _ _ _ _ Hr).
    split; [intros [H|H]; [inversion H | exact H] | auto]. }
  destruct Hpt as [Hp|[Hp|Hp]]; rewrite Hp; cbn [slider_fns].
  - apply E.
  - apply E.
  - unfold Board.add_queen_moves, Board.add_bishop_moves, Board.add_rook_moves.
    destruct (Board.add_valid_moves in_board [] key Board.bishop_fns cell)
      as [l1| |] eqn:H1; cbn [mbind outcome_bind]; try discriminate.
    intros Hr. rewrite (elem_of_add_valid_moves _ _ _ _ _ _ _ Hr), (E _ _ H1).
    split.
    + intros [(fn & Hfn & H)|(fn & Hfn & H)]; exists fn;
        (split; [apply elem_of_app; auto | exact H]).
    + intros (fn & [Hfn|Hfn]%elem_of_app & H); [left|right]; eauto.
Qed.

Lemma sliders_do_not_jump_witness :
  1285 ∈ [1285; 1286; 1287; 1290; 1289; 3; 260; 517; 774; 1031; 2563; 2308;
          2053; 1798; 1543; 776; 1032; 1800; 1544]
  <-> exists fn, fn ∈ slider_fns rook
                 /\ slides_to king_and_rook (mkCell rook black) fn 1288 1285.
Proof.
  apply (sliders_do_not_jump king_and_rook 1288 (mkCell rook black)).
  - vm_compute. reflexivity.
  - right. left. reflexivity.
  - vm_compute. reflexivity.
Defined.

(** X11. A king reaches exactly the keys one step away in one of the twelve
    directions, a knight exactly the keys of its twelve jumps, in both cases
    only cells that are empty or hold a piece of the opposite color; neither
    has more than twelve moves. *)
Theorem king_and_knight_moves (in_board : BoardMap) (key : Z) (cell : Cell)
    (l : list Z) :
  in_board !! key = Some cell ->
  piece cell = king \/ piece cell = knight ->
  raw_moves in_board key = Ok l ->
  (forall k, k ∈ l <-> exists fn, fn ∈ jumps (piece cell)
                                  /\ k = fn key /\ lands in_board cell k)
  /\ (length l <= 12)%nat.
Proof.
  intros Hcell Hpt. unfold raw_moves, Board.deref. rewrite Hcell.
  cbn [mbind outcome_bind]. unfold Board.piece_moves.
  destruct Hpt as [Hp|Hp]; rewrite Hp; simpl jumps; intros [= <-].
  - unfold Board.add_king_moves. split.
    + intros k. rewrite elem_of_foldl_add_if_valid.
      split; [intros [H|H]; [inversion H | exact H] | auto].
    + apply (length_foldl_add_if_valid in_board cell key Board.king_fns []).
  - rewrite add_knight_moves_foldl. split.
    + intros k. rewrite elem_of_foldl_add_if_valid.
      split; [intros [H|H]; [inversion H | exact H] | auto].
    + apply (length_foldl_add_if_valid in_board cell key knight_jumps []).
Qed.

Lemma king_and_knight_moves_witness :
  (forall k,
     k ∈ [772; 1796; 1027; 1539; 1030; 1542; 1028; 1540; 1029; 1541; 1284; 1286]
     <-> exists fn, fn ∈ jumps king /\ k = fn 1285
                    /\ lands king_and_rook (mkCell king white) k)
  /\ (length [772; 1796; 1027; 1539; 1030; 1542; 1028; 1540; 1029; 1541;
              1284; 1286] <= 12)%nat.
Proof.
  apply (king_and_knight_moves king_and_rook 1285 (mkCell king white)).
  - vm_compute. reflexivity.
  - left. reflexivity.
  - vm_compute. reflexivity.
Defined.

(** X12. The raw moves of a pawn are exactly these: the cell one step ahead
    if it is empty; the cell two steps ahead if the pawn stands on a starting
    key of its color and both cells ahead are empty; and each of the two
    cells diagonally ahead if it holds a piece of the opposite color.  A pawn
    never steps back or sideways, and never captures onto an empty cell. *)
Theorem pawn_moves_characterised (in_board : BoardMap) (key : Z) (cell : Cell)
    (l : list Z) (fn_move fn_take_1 fn_take_2 : Z -> Z) (k : Z) :
  in_board !! key = Some cell ->
  piece cell = pawn ->
  Board.pawn_directions (piece_color cell) = Some (fn_move, fn_take_1, fn_take_2) ->
  raw_moves in_board key = Ok l ->
  k ∈ l <->
    (k = fn_move key /\ empty_at in_board k)
    \/ (k = fn_move (fn_move key)
        /\ Board.is_initial_pawn_cell key cell = true
        /\ empty_at in_board (fn_move key) /\ empty_at in_board k)
    \/ ((k = fn_take_1 key \/ k = fn_take_2 key)
        /\ exists c, in_board !! k = Some c
                     /\ CellOps.has_piece_of_opposite_color c cell = true).
Proof.
  intros Hcell Hpawn Hdir. unfold raw_moves, Board.deref. rewrite Hcell.
  cbn [mbind outcome_bind]. unfold Board.piece_moves. rewrite Hpawn.
  intros [= <-]. unfold Board.add_pawn_moves. rewrite Hdir.
  rewrite !elem_of_add_pawn_take_if_valid. unfold empty_at.
  destruct (in_board !! fn_move key) as [c1|] eqn:H1.
  - destruct (CellOps.has_piece c1) eqn:Hp1; simpl.
    + rewrite elem_of_add_if_valid, elem_of_nil. rewrite H1.
      split.
      * intros [[[[]|(-> & c & [= <-] & [Hc|[_ [=]]])]|(-> & H)]|(-> & H)];
          [congruence|right; right; eauto..].
      * intros [(-> & c & Hc & Hp)|[(-> & _ & (c & [= <-] & Hc) & _)
                                   |([->| ->] & H)]];
          [rewrite H1 in Hc; congruence|congruence|auto..].
    + destruct (Board.is_initial_pawn_cell key cell) eqn:Hi; simpl;
        rewrite !elem_of_add_if_valid, elem_of_nil; rewrite H1.
      * split.
        -- intros [[[[[]|(-> & c & [= <-] & _)]
                    |(-> & c & Hc & [Hp|[_ [=]]])]|(-> & H)]|(-> & H)].
           ++ left. eauto.
           ++ right. left. eauto 10.
           ++ right. right. eauto.
           ++ right. right. eauto.
        -- intros [(-> & c & Hc & Hp)|[(-> & _ & _ & (c & Hc & Hp))
                                      |([->| ->] & H)]].
           ++ left. left. left. right. eauto.
           ++ left. left. right. eauto 10.
           ++ left. right. auto.
           ++ right. auto.
      * split.
        -- intros [[[[]|(-> & c & [= <-] & _)]|(-> & H)]|(-> & H)].
           ++ left. eauto.
           ++ right. right. eauto.
           ++ right. right. eauto.
        -- intros [(-> & c & Hc & Hp)|[(-> & [=] & _)|([->| ->] & H)]].
           ++ left. left. right. eauto.
           ++ left. right. auto.
           ++ right. auto.
  - rewrite elem_of_nil. split.
    + intros [[[]|(-> & H)]|(-> & H)]; right; right; eauto.
    + intros [(-> & c & Hc & _)|[(-> & _ & (c & Hc & _) & _)|([->| ->] & H)]];
        [congruence|congruence|auto..].
Qed.

Lemma pawn_moves_characterised_witness :
  258 ∈ [258; 257] <->
    (258 = Board.move_vertically_up 256 /\ empty_at pawn_on_1_0 258)
    \/ (258 = Board.move_vertically_up (Board.move_vertically_up 256)
        /\ Board.is_initial_pawn_cell 256 (mkCell pawn white) = true
        /\ empty_at pawn_on_1_0 (Board.move_vertically_up 256)
        /\ empty_at pawn_on_1_0 258)
    \/ ((258 = Board.move_horizontally_top_left 256
         \/ 258 = Board.move_horizontally_top_right 256)
        /\ exists c, pawn_on_1_0 !! 258 = Some c
                     /\ CellOps.has_piece_of_opposite_color c (mkCell pawn white)
                        = true).
Proof.
  apply (pawn_moves_characterised pawn_on_1_0 256 (mkCell pawn white)).
  - vm_compute. reflexivity.
  - reflexivity.
  - reflexivity.
  - vm_compute. reflexivity.
Defined.

(** ** Moves as the game sees them *)

Section GameMoves.

Implicit Types (self ActiveBoard : BoardMap) (k key : Z) (c cell : Cell).

Lemma foldl_push_front {A B} (g : A -> B) (l : list A) (acc : list B) :
  foldl (fun pos_list a => g a :: pos_list) acc l = reverse (g <$> l) ++ acc.
Proof.
  revert acc. induction l as [|a l IH]; intros acc; [reflexivity|].
  rewrite fmap_cons, reverse_cons, <- app_assoc. simpl. apply IH.
Qed.

(* A point that [GetMovesForCell] returns is the position of a key that
   [get_valid_moves] returns for the key of the queried point. *)
Lemma elem_of_GetMovesForCell ActiveBoard InPosition Moves Move :
  ChessGod.GetMovesForCell ActiveBoard InPosition = Ok Moves ->
  Move ∈ Moves <->
  exists moves k,
    Board.get_valid_moves ActiveBoard
      (Board.to_position_key (X InPosition) (Y InPosition)) = Ok moves
    /\ k ∈ moves
    /\ Move = mkFIntPoint (Board.get_x k) (Board.get_y k).
Proof.
  unfold ChessGod.GetMovesForCell, Board.get_valid_moves_pos,
    Board.to_position_key_pos. simpl.
  destruct (Board.get_valid_moves ActiveBoard _) as [moves| |]; simpl;
    try discriminate.
  intros [= <-]. rewrite foldl_push_front, app_nil_r.
  change (map ?f ?l) with (f <$> l).
  rewrite list_elem_of_fmap. setoid_rewrite elem_of_reverse.
  setoid_rewrite list_elem_of_fmap. split.
  - intros (p & -> & k & -> & Hk). exists moves, k. auto.
  - intros (moves' & k & [= <-] & Hk & ->).
    exists (Board.to_position k). split; [reflexivity|]. eauto.
Qed.

(* A key that [get_valid_moves] returns is a cell of the board without a
   piece of the mover's color. *)
Lemma get_valid_moves_in_target self in_board key skip cell moves k :
  in_board !! key = Some cell ->
  Board.get_valid_moves_in self in_board key skip = Ok moves ->
  k ∈ moves -> target in_board cell k.
Proof.
  intros Hcell Hmoves Hk.
  destruct (get_valid_moves_in_candidates _ _ _ _ _ Hmoves)
    as (cell' & l & kk & Hcand & Hsub).
  apply candidate_moves_ok in Hcand as (Hcell' & Hl & _).
  assert (cell' = cell) by congruence. subst cell'.
  exact (piece_moves_target _ _ _ _ _ Hl (Hsub _ Hk)).
Qed.

Lemma to_position_key_get key :
  0 <= key < 2 ^ 30 ->
  Board.to_position_key (Board.get_x key) (Board.get_y key) = key.
Proof. exact (to_position_key_to_position key). Qed.


(* Without a king among the pieces of the color the search answers -1. *)
Lemma find_king_key_none self pc :
  (forall k c, self !! k = Some c -> piece_color c = pc -> piece c <> king) ->
  Board.find_king_key self (Board.get_piece_keys self pc) = Ok (-1).
Proof.
  intros Hno.
  destruct (find_king_key_returns self (Board.get_piece_keys self pc))
    as [kk Hkk]; [intros k; apply get_piece_keys_valid|].
  rewrite Hkk. f_equal.
  apply find_king_key_spec in Hkk as [[Hin (c & Hc & Hpc)]|[-> _]];
    [|reflexivity].
  apply elem_of_get_piece_keys_in in Hin as (c' & Hc' & Hcol').
  assert (c' = c) by congruence. subst c'.
  destruct (Hno _ _ Hc Hcol' Hpc).
Qed.


End GameMoves.

(** X13. On a board whose keys are packed coordinates, every point that
    [GetMovesForCell] returns for a cell is a cell of the board, and it does
    not hold a piece of the color of the piece that moves. *)
Theorem moves_for_cell_avoid_own_pieces (ActiveBoard : BoardMap)
    (InPosition : FIntPoint) (cell : Cell) (Moves : list FIntPoint)
    (Move : FIntPoint) :
  keys_in_range ActiveBoard ->
  ActiveBoard !! Board.to_position_key (X InPosition) (Y InPosition) = Some cell ->
  ChessGod.GetMovesForCell ActiveBoard InPosition = Ok Moves ->
  Move ∈ Moves ->
  exists c, ActiveBoard !! Board.to_position_key (X Move) (Y Move) = Some c
            /\ CellOps.has_piece_of_same_color c cell = false.
Proof.
  intros Hm Hcell HMoves HMove.
  apply (elem_of_GetMovesForCell _ _ _ _ HMoves) in HMove
    as (moves & k & Hmoves & Hk & ->).
  destruct (get_valid_moves_in_target _ _ _ _ _ _ _ Hcell Hmoves Hk)
    as (c & Hc & Hsame).
  exists c. simpl. rewrite to_position_key_get by exact (Hm _ _ Hc). auto.
Qed.

Lemma moves_for_cell_avoid_own_pieces_witness :
  exists c, king_and_rook !! Board.to_position_key 5 5 = Some c
            /\ CellOps.has_piece_of_same_color c (mkCell rook black) = false.
Proof.
  apply (moves_for_cell_avoid_own_pieces king_and_rook (mkFIntPoint 5 8)
           (mkCell rook black)
           (map (fun k => mkFIntPoint (Board.get_x k) (Board.get_y k))
              [1544; 1800; 1032; 776; 1543; 1798; 2053; 2308; 2563; 1031; 774;
               517; 260; 3; 1289; 1290; 1287; 1286; 1285])
           (mkFIntPoint 5 5)).
  - apply (bool_decide_unpack _). vm_compute. exact I.
  - vm_compute. reflexivity.
  - vm_compute. reflexivity.
  - apply (list_elem_of_fmap_2' _ _ 1285); [|reflexivity].
    apply (bool_decide_unpack _). vm_compute. exact I.
Defined.

(** X14. Playing with [MovePiece] a point that [GetMovesForCell] returned
    for a cell puts the piece of that cell on the point, whatever stood
    there, empties the cell it came from and leaves every other cell as it
    was. *)
Theorem playing_a_listed_move (ActiveBoard : BoardMap) (From To : FIntPoint)
    (cell : Cell) (Moves : list FIntPoint) :
  keys_in_range ActiveBoard ->
  ActiveBoard !! Board.to_position_key (X From) (Y From) = Some cell ->
  ChessGod.GetMovesForCell ActiveBoard From = Ok Moves ->
  To ∈ Moves ->
  ChessGod.MovePiece ActiveBoard From To
  = <[Board.to_position_key (X To) (Y To) := cell]>
      (<[Board.to_position_key (X From) (Y From) := CellOps.new]> ActiveBoard).
Proof.
  intros Hm Hcell HMoves HTo.
  apply (elem_of_GetMovesForCell _ _ _ _ HMoves) in HTo
    as (moves & k & Hmoves & Hk & ->).
  destruct (get_valid_moves_in_target _ _ _ _ _ _ _ Hcell Hmoves Hk)
    as (c & Hc & _).
  unfold ChessGod.MovePiece, Board.move_piece. simpl.
  rewrite (move_piece_in_valid _ _ _ cell).
  - unfold Board.to_position_key_pos. simpl. destruct cell. reflexivity.
  - exact Hcell.
  - unfold Board.to_position_key_pos. simpl.
    rewrite to_position_key_get by exact (Hm _ _ Hc). eauto.
Qed.

Lemma playing_a_listed_move_witness :
  ChessGod.MovePiece king_and_rook (mkFIntPoint 5 8) (mkFIntPoint 5 5)
  = <[Board.to_position_key 5 5 := mkCell rook black]>
      (<[Board.to_position_key 5 8 := CellOps.new]> king_and_rook).
Proof.
  apply (playing_a_listed_move king_and_rook (mkFIntPoint 5 8) (mkFIntPoint 5 5)
           (mkCell rook black)
           (map (fun k => mkFIntPoint (Board.get_x k) (Board.get_y k))
              [1544; 1800; 1032; 776; 1543; 1798; 2053; 2308; 2563; 1031; 774;
               517; 260; 3; 1289; 1290; 1287; 1286; 1285])).
  - apply (bool_decide_unpack _). vm_compute. exact I.
  - vm_compute. reflexivity.
  - vm_compute. reflexivity.
  - apply (list_elem_of_fmap_2' _ _ 1285); [|reflexivity].
    apply (bool_decide_unpack _). vm_compute. exact I.
Defined.

(** X15. When no piece of the mover's color is a king, [get_valid_moves]
    filters nothing: it returns the raw moves of the piece, in their
    order. *)
Theorem no_king_no_filter (self : BoardMap) (key : Z) (cell : Cell) :
  self !! key = Some cell ->
  (forall k c, self !! k = Some c -> piece_color c = piece_color cell ->
               piece c <> king) ->
  Board.get_valid_moves self key = raw_moves self key.
Proof.
  intros Hcell Hno.
  unfold Board.get_valid_moves, Board.get_valid_moves_in,
    Board.candidate_moves, raw_moves, Board.deref.
  rewrite Hcell. cbn [mbind outcome_bind].
  destruct (Board.piece_moves self key cell) as [l| |];
    cbn [mbind outcome_bind]; try reflexivity.
  rewrite (find_king_key_none _ _ Hno). reflexivity.
Qed.

Lemma no_king_no_filter_witness :
  Board.get_valid_moves pawn_on_1_0 256 = raw_moves pawn_on_1_0 256.
Proof.
  apply (no_king_no_filter pawn_on_1_0 256 (mkCell pawn white)).
  - vm_compute. reflexivity.
  - intros k c Hc _.
    assert (Hin : (k, c) ∈ Board.entries pawn_on_1_0)
      by (apply elem_of_entries; exact Hc).
    vm_compute in Hin.
    repeat (apply elem_of_cons in Hin as [Hin|Hin];
            [injection Hin as -> ->; discriminate|]).
    inversion Hin.
Defined.



(** X17. [IsCellUnderAttack] answers [true] for a cell exactly when some
    cell whose color is the opposite of the cell's color has the cell's key
    among its raw moves.  The moves of the attacker are not filtered: a piece
    that may not move because its own king would be exposed still attacks. *)
Theorem attacked_iff_in_reach (ActiveBoard : BoardMap) (InPosition : FIntPoint)
    (c : Cell) (b : bool) :
  ActiveBoard !! Board.to_position_key (X InPosition) (Y InPosition) = Some c ->
  ChessGod.IsCellUnderAttack ActiveBoard InPosition = Ok b ->
  b = true <->
  exists k ck ms,
    ActiveBoard !! k = Some ck
    /\ piece_color ck = CellOps.get_opposite_color c
    /\ raw_moves ActiveBoard k = Ok ms
    /\ Board.to_position_key (X InPosition) (Y InPosition) ∈ ms.
Proof.
  intros Hc.
  unfold ChessGod.IsCellUnderAttack, Board.can_be_captured_pos,
    Board.to_position_key_pos, Board.can_be_captured_in. simpl.
  unfold Board.deref at 1. rewrite Hc. cbn [mbind outcome_bind].
  rewrite get_all_piece_move_keys_skip_raw by reflexivity.
  destruct (Board.get_all_piece_move_keys_loop _ _ _) as [r| |] eqn:Hr;
    cbn [mbind outcome_bind]; try discriminate.
  intros [= <-]. rewrite bool_decide_eq_true.
  rewrite (elem_of_get_all_piece_move_keys_loop _ _ _ _ _ Hr), elem_of_nil.
  setoid_rewrite elem_of_get_piece_keys_in. split.
  - intros [[]|(k & ms & (ck & Hck & Hcol) & Hms & Hin)]. eauto 10.
  - intros (k & ck & ms & Hck & Hcol & Hms & Hin). right. eauto 10.
Qed.

Lemma attacked_iff_in_reach_witness :
  true = true <->
  exists k ck ms,
    king_and_rook !! k = Some ck
    /\ piece_color ck = CellOps.get_opposite_color (mkCell king white)
    /\ raw_moves king_and_rook k = Ok ms
    /\ Board.to_position_key 5 5 ∈ ms.
Proof.
  apply (attacked_iff_in_reach king_and_rook (mkFIntPoint 5 5)
           (mkCell king white) true).
  - vm_compute. reflexivity.
  - vm_compute. reflexivity.
Defined.

(** X18. [AreThereValidMovesForPlayer] answers [true] exactly when some
    piece of the player's color has a non-empty list of valid moves. *)
Theorem player_has_moves_iff_a_piece_has (ActiveBoard : BoardMap)
    (IsWhitePlayer : bool) (b : bool) :
  ChessGod.AreThereValidMovesForPlayer ActiveBoard IsWhitePlayer = Ok b ->
  b = true <->
  exists k c ms,
    ActiveBoard !! k = Some c
    /\ piece_color c = ChessGod.player_color IsWhitePlayer
    /\ Board.get_valid_moves ActiveBoard k = Ok ms
    /\ ms <> [].
Proof.
  unfold ChessGod.AreThereValidMovesForPlayer, Board.are_there_valid_moves,
    Board.get_all_piece_move_keys_in.
  destruct (Board.get_all_piece_move_keys_loop _ _ _) as [r| |] eqn:Hr;
    cbn [mbind outcome_bind]; try discriminate.
  intros [= <-]. rewrite bool_decide_eq_true.
  pose proof (fun x => elem_of_get_all_piece_move_keys_loop _ _ _ _ x Hr) as Hin.
  split.
  - intros Hlen. destruct r as [|x r]; [simpl in Hlen; lia|].
    destruct (proj1 (Hin x)) as [H|(k & ms & Hk & Hms & Hx)];
      [left | inversion H |].
    apply elem_of_get_piece_keys_in in Hk as (c & Hc & Hcol).
    exists k, c, ms. repeat split; try assumption.
    intros ->. inversion Hx.
  - intros (k & c & [|x ms] & Hc & Hcol & Hms & Hne); [contradiction|].
    assert (Hx : x ∈ r).
    { apply Hin. right. exists k, (x :: ms).
      split; [apply elem_of_get_piece_keys_in; eauto|]. split; [exact Hms|left]. }
    destruct r; [inversion Hx | simpl; lia].
Qed.

Lemma player_has_moves_iff_a_piece_has_witness :
  false = true <->
  exists k c ms,
    pawn_on_0_5 !! k = Some c
    /\ piece_color c = ChessGod.player_color true
    /\ Board.get_valid_moves pawn_on_0_5 k = Ok ms
    /\ ms <> [].
Proof.
  apply (player_has_moves_iff_a_piece_has pawn_on_0_5 true false).
  vm_compute. reflexivity.
Defined.

(** ** Move sources *)

Section MoveSources.

Implicit Types (self : BoardMap) (k key : Z) (c cell : Cell) (l : list Z).

Lemma elem_of_get_possible_move_sources_loop (f : Z -> outcome (list Z))
    (target_key : Z) (all_moves : list Z) l r k :
  Board.get_possible_move_sources_loop f target_key all_moves l = Ok r ->
  k ∈ r <->
  k ∈ l \/ (k ∈ all_moves /\ exists ms, f k = Ok ms /\ target_key ∈ ms).
Proof.
  revert l. induction all_moves as [|move rest IH]; intros l; simpl.
  - intros [= <-]. split; [auto|]. intros [H|[H _]]; [exact H | inversion H].
  - destruct (f move) as [moves| |] eqn:Hf; cbn [mbind outcome_bind];
      try discriminate.
    intros Hr. rewrite (IH _ Hr). split.
    + intros [H|[Hk Hms]]; [|right; split; [right; exact Hk | exact Hms]].
      case_bool_decide as Ht; [|left; exact H].
      apply elem_of_cons in H as [->|H]; [right|left; exact H].
      split; [left | eauto].
    + intros [H|[[->|Hk]%elem_of_cons (ms & Hms & Ht)]].
      * left. case_bool_decide; [right|]; exact H.
      * left. rewrite Hf in Hms. injection Hms as <-.
        rewrite bool_decide_eq_true_2 by exact Ht. left.
      * right. eauto.
Qed.

Lemma get_possible_move_sources_loop_returns (f : Z -> outcome (list Z))
    (target_key : Z) (all_moves : list Z) l :
  (forall k, k ∈ all_moves -> exists ms, f k = Ok ms) ->
  exists r, Board.get_possible_move_sources_loop f target_key all_moves l = Ok r.
Proof.
  revert l. induction all_moves as [|move rest IH]; intros l Hf; simpl;
    [eauto|].
  destruct (Hf move) as [ms ->]; [left|]. cbn [mbind outcome_bind].
  apply IH. intros k Hk. apply Hf. right. exact Hk.
Qed.

Lemma get_valid_moves_in_raw self key :
  Board.get_valid_moves_in self self key true = raw_moves self key.
Proof.
  rewrite get_valid_moves_in_skip. apply get_valid_moves_skip_raw. reflexivity.
Qed.

Lemma get_possible_move_sources_raw self target_key pc :
  Board.get_possible_move_sources self target_key pc
  = (all_moves ← Board.get_all_piece_move_keys_loop (raw_moves self)
                   (Board.get_piece_keys_in self pc) [];
     Board.get_possible_move_sources_loop (raw_moves self) target_key
       all_moves []).
Proof.
  unfold Board.get_possible_move_sources, Board.get_possible_move_sources_in,
    Board.get_all_piece_move_keys_in.
  rewrite (get_all_piece_move_keys_loop_ext _ (raw_moves self))
    by (intros k _; apply get_valid_moves_in_raw).
  destruct (Board.get_all_piece_move_keys_loop _ _ _) as [all_moves| |];
    cbn [mbind outcome_bind]; try reflexivity.
  generalize (@nil Z). induction all_moves as [|move rest IH]; intros l;
    simpl; [reflexivity|].
  rewrite get_valid_moves_in_raw.
  destruct (raw_moves self move) as [ms| |]; cbn [mbind outcome_bind];
    try reflexivity.
  apply IH.
Qed.

End MoveSources.

(** X19. [get_possible_move_sources(target, pc)] returns a key exactly when
    the key is a raw move of some cell of color [pc] and [target] is among
    the raw moves of the piece that stands on the key itself.  So for white
    or black [pc] a returned key never holds a piece of color [pc]: it holds
    a piece of another color that a [pc] piece can capture. *)
Theorem move_sources_are_capturable_pieces (self : BoardMap) (target_key : Z)
    (pc : PieceColor) (r : list Z) (k : Z) :
  pc <> absent ->
  Board.get_possible_move_sources self target_key pc = Ok r ->
  (k ∈ r <->
     (exists src csrc l, self !! src = Some csrc /\ piece_color csrc = pc
                         /\ raw_moves self src = Ok l /\ k ∈ l)
     /\ exists ms, raw_moves self k = Ok ms /\ target_key ∈ ms)
  /\ (k ∈ r ->
      exists c, self !! k = Some c /\ CellOps.has_piece c = true
                /\ piece_color c <> pc).
Proof.
  intros Hpc. rewrite get_possible_move_sources_raw.
  destruct (Board.get_all_piece_move_keys_loop _ _ _) as [all_moves| |] eqn:Hall;
    cbn [mbind outcome_bind]; try discriminate.
  intros Hr.
  assert (E : k ∈ r <->
     (exists src csrc l, self !! src = Some csrc /\ piece_color csrc = pc
                         /\ raw_moves self src = Ok l /\ k ∈ l)
     /\ exists ms, raw_moves self k = Ok ms /\ target_key ∈ ms).
  { rewrite (elem_of_get_possible_move_sources_loop _ _ _ _ _ _ Hr), elem_of_nil.
    rewrite (elem_of_get_all_piece_move_keys_loop _ _ _ _ _ Hall), elem_of_nil.
    setoid_rewrite elem_of_get_piece_keys_in. split.
    - intros [[]|[[[]|(src & l & (csrc & Hsrc & Hcol) & Hl & Hk)] Hms]].
      split; [eauto 10 | exact Hms].
    - intros [(src & csrc & l & Hsrc & Hcol & Hl & Hk) Hms].
      right. split; [right; eauto 10 | exact Hms]. }
  split; [exact E|]. intros Hk.
  apply E in Hk as [(src & csrc & l & Hsrc & Hcol & Hl & Hk) (ms & Hms & Ht)].
  unfold raw_moves, Board.deref in Hl. rewrite Hsrc in Hl.
  cbn [mbind outcome_bind] in Hl.
  destruct (piece_moves_target _ _ _ _ _ Hl Hk) as (c & Hc & Hsame).
  unfold raw_moves, Board.deref in Hms. rewrite Hc in Hms.
  cbn [mbind outcome_bind] in Hms.
  exists c. split; [exact Hc|].
  assert (Hp : piece c <> none).
  { intros Hn. unfold Board.piece_moves in Hms. rewrite Hn in Hms.
    injection Hms as <-. inversion Ht. }
  split.
  - unfold CellOps.has_piece. rewrite bool_decide_eq_false_2 by exact Hp.
    reflexivity.
  - intros Hcc. unfold CellOps.has_piece_of_same_color in Hsame.
    rewrite Hcol, Hcc in Hsame.
    rewrite (bool_decide_eq_false_2 _ Hp), (bool_decide_eq_false_2 _ Hpc) in Hsame.
    rewrite bool_decide_eq_true_2 in Hsame by reflexivity. discriminate.
Qed.

Lemma move_sources_are_capturable_pieces_witness :
  (1285 ∈ [1285] <->
     (exists src csrc l, king_and_rook !! src = Some csrc
                         /\ piece_color csrc = black
                         /\ raw_moves king_and_rook src = Ok l /\ 1285 ∈ l)
     /\ exists ms, raw_moves king_and_rook 1285 = Ok ms /\ 1286 ∈ ms)
  /\ (1285 ∈ [1285] ->
      exists c, king_and_rook !! 1285 = Some c /\ CellOps.has_piece c = true
                /\ piece_color c <> black).
Proof.
  apply (move_sources_are_capturable_pieces king_and_rook 1286 black).
  - discriminate.
  - vm_compute. reflexivity.
Defined.

(** ** What the random AI plays *)

Section RandomAIMoves.

Variable RandRange : nat -> Z -> Z -> Z.

Lemma random_move_loop_sound (ActiveBoard : BoardMap) (PieceKeys : list Z)
    (fuel draws : nat) (Result : list FIntPoint) :
  ChessGod.random_move_loop RandRange fuel draws ActiveBoard PieceKeys = Ok Result ->
  exists k ms m,
    k ∈ PieceKeys /\ Board.get_valid_moves ActiveBoard k = Ok ms /\ m ∈ ms
    /\ Result = [ mkFIntPoint (Board.get_x k) (Board.get_y k);
                  mkFIntPoint (Board.get_x m) (Board.get_y m) ].
Proof.
  revert draws. induction fuel as [|fuel IH]; intros draws;
    cbn [ChessGod.random_move_loop]; [discriminate|].
  destruct (ChessGod.list_at PieceKeys _) as [k| |] eqn:Hk;
    cbn [mbind outcome_bind]; try discriminate.
  destruct (Board.get_valid_moves ActiveBoard k) as [ms| |] eqn:Hms;
    cbn [mbind outcome_bind]; try discriminate.
  case_bool_decide as Hlen; [|apply IH].
  destruct (ChessGod.list_at ms _) as [m| |] eqn:Hm;
    cbn [mbind outcome_bind]; try discriminate.
  intros [= <-]. exists k, ms, m.
  split; [exact (list_at_elem_of _ _ _ Hk)|]. split; [exact Hms|].
  split; [exact (list_at_elem_of _ _ _ Hm) | reflexivity].
Qed.

End RandomAIMoves.

(** X20. Whatever the random draws are, when the random AI returns it
    returns either nothing, and then its side has no piece on the board, or
    two points: the position of a piece of its side and the position of one
    of the valid moves of that piece. *)
Theorem random_ai_plays_a_valid_move (RandRange : nat -> Z -> Z -> Z)
    (fuel : nat) (ActiveBoard : BoardMap) (IsWhiteAI : bool)
    (Result : list FIntPoint) :
  ChessGod.MakeAIMove RandRange fuel ActiveBoard IsWhiteAI Random = Ok Result ->
  (Result = []
   /\ Board.get_piece_keys ActiveBoard (ChessGod.player_color IsWhiteAI) = [])
  \/ exists k c ms m,
       ActiveBoard !! k = Some c
       /\ piece_color c = ChessGod.player_color IsWhiteAI
       /\ Board.get_valid_moves ActiveBoard k = Ok ms /\ m ∈ ms
       /\ Result = [ mkFIntPoint (Board.get_x k) (Board.get_y k);
                     mkFIntPoint (Board.get_x m) (Board.get_y m) ].
Proof.
  unfold ChessGod.MakeAIMove, ChessGod.CalculateRandomAIMove.
  case_bool_decide as Hlen.
  - intros [= <-]. left. split; [reflexivity|].
    apply length_zero_iff_nil, Hlen.
  - intros Hr. right.
    apply random_move_loop_sound in Hr as (k & ms & m & Hk & Hms & Hm & ->).
    apply elem_of_get_piece_keys_in in Hk as (c & Hc & Hcol).
    exists k, c, ms, m. auto.
Qed.

Lemma random_ai_plays_a_valid_move_witness :
  ([mkFIntPoint 5 5; mkFIntPoint 6 5] = []
   /\ Board.get_piece_keys king_and_rook (ChessGod.player_color true) = [])
  \/ exists k c ms m,
       king_and_rook !! k = Some c
       /\ piece_color c = ChessGod.player_color true
       /\ Board.get_valid_moves king_and_rook k = Ok ms /\ m ∈ ms
       /\ [mkFIntPoint 5 5; mkFIntPoint 6 5]
          = [ mkFIntPoint (Board.get_x k) (Board.get_y k);
              mkFIntPoint (Board.get_x m) (Board.get_y m) ].
Proof.
  apply (random_ai_plays_a_valid_move (fun _ Min _ => Min) 1 king_and_rook true).
  vm_compute. reflexivity.
Defined.

(** X21. [GetValidMovesForPlayer] returns the destinations only: a point is
    in its list exactly when it is the position of a valid move of some
    piece of the player's color. *)
Theorem player_moves_are_destinations (ActiveBoard : BoardMap)
    (IsWhitePlayer : bool) (Moves : list FIntPoint) (Move : FIntPoint) :
  ChessGod.GetValidMovesForPlayer ActiveBoard IsWhitePlayer = Ok Moves ->
  Move ∈ Moves <->
  exists k c ms m,
    ActiveBoard !! k = Some c
    /\ piece_color c = ChessGod.player_color IsWhitePlayer
    /\ Board.get_valid_moves ActiveBoard k = Ok ms /\ m ∈ ms
    /\ Move = mkFIntPoint (Board.get_x m) (Board.get_y m).
Proof.
  unfold ChessGod.GetValidMovesForPlayer, Board.get_all_piece_move_keys,
    Board.get_all_piece_move_keys_in.
  destruct (Board.get_all_piece_move_keys_loop _ _ _) as [r| |] eqn:Hr;
    cbn [mbind outcome_bind]; try discriminate.
  intros [= <-]. change (map ?f ?l) with (f <$> l).
  rewrite list_elem_of_fmap.
  setoid_rewrite (elem_of_get_all_piece_move_keys_loop _ _ _ _ _ Hr).
  setoid_rewrite elem_of_nil. setoid_rewrite elem_of_get_piece_keys_in.
  split.
  - intros (m & -> & [[]|(k & ms & (c & Hc & Hcol) & Hms & Hm)]).
    exists k, c, ms, m. auto.
  - intros (k & c & ms & m & Hc & Hcol & Hms & Hm & ->).
    exists m. split; [reflexivity|]. right. eauto 10.
Qed.

Lemma player_moves_are_destinations_witness :
  mkFIntPoint 6 5
  ∈ [mkFIntPoint 6 5; mkFIntPoint 4 5; mkFIntPoint 6 4; mkFIntPoint 4 4;
     mkFIntPoint 6 6; mkFIntPoint 4 6; mkFIntPoint 6 3; mkFIntPoint 4 3;
     mkFIntPoint 7 4; mkFIntPoint 3 4]
  <-> exists k c ms m,
        king_and_rook !! k = Some c
        /\ piece_color c = ChessGod.player_color true
        /\ Board.get_valid_moves king_and_rook k = Ok ms /\ m ∈ ms
        /\ mkFIntPoint 6 5 = mkFIntPoint (Board.get_x m) (Board.get_y m).
Proof.
  apply (player_moves_are_destinations king_and_rook true).
  vm_compute. reflexivity.
Defined.

(** ** The queries return *)

(** X22. On a board whose keys are packed coordinates every query returns:
    [get_valid_moves] and [can_be_captured] for each cell of the board,
    [evaluate], [are_there_valid_moves] for each color and
    [get_possible_move_sources] for each target and color.  None of them
    dereferences a missing cell there, and every sliding loop ends. *)
Theorem queries_return_on_boards (self : BoardMap) :
  keys_in_range self ->
  (forall key, is_Some (self !! key) ->
     (exists moves, Board.get_valid_moves self key = Ok moves)
     /\ (exists b, Board.can_be_captured self key = Ok b))
  /\ (exists score, Board.evaluate self = Ok score)
  /\ (forall pc, exists b, Board.are_there_valid_moves self pc = Ok b)
  /\ (forall target_key pc,
        exists l, Board.get_possible_move_sources self target_key pc = Ok l).
Proof.
  intros Hm. split; [|split; [|split]].
  - intros key Hkey. split.
    + apply get_valid_moves_returns; assumption.
    + apply can_be_captured_returns; assumption.
  - rewrite evaluate_wrapped_sum by exact Hm. eauto.
  - intros pc. unfold Board.are_there_valid_moves, Board.get_all_piece_move_keys_in.
    destruct (get_all_piece_move_keys_loop_returns
                (fun key => Board.get_valid_moves_in self self key false)
                (Board.get_piece_keys_in self pc) []) as [r ->].
    + intros k Hk. apply (get_valid_moves_returns self k Hm).
      apply elem_of_get_piece_keys_in in Hk as (c & Hc & _). eauto.
    + cbn [mbind outcome_bind]. eauto.
  - intros target_key pc. rewrite get_possible_move_sources_raw.
    destruct (get_all_piece_move_keys_loop_returns (raw_moves self)
                (Board.get_piece_keys_in self pc) []) as [all_moves Hall].
    + intros k Hk. apply raw_moves_returns; [exact Hm|].
      apply elem_of_get_piece_keys_in in Hk as (c & Hc & _). eauto.
    + rewrite Hall. cbn [mbind outcome_bind].
      apply get_possible_move_sources_loop_returns. intros k Hk.
      apply (elem_of_get_all_piece_move_keys_loop _ _ _ _ _ Hall) in Hk
        as [Hk|(src & l & Hsrc & Hl & Hk)]; [inversion Hk|].
      apply raw_moves_returns; [exact Hm|].
      unfold raw_moves, Board.deref in Hl.
      destruct (self !! src) as [csrc|]; [|discriminate].
      cbn [mbind outcome_bind] in Hl.
      destruct (piece_moves_target _ _ _ _ _ Hl Hk) as (c & Hc & _). eauto.
Qed.

Lemma queries_return_on_boards_witness :
  (forall key, is_Some (check_position !! key) ->
     (exists moves, Board.get_valid_moves check_position key = Ok moves)
     /\ (exists b, Board.can_be_captured check_position key = Ok b))
  /\ (exists score, Board.evaluate check_position = Ok score)
  /\ (forall pc, exists b, Board.are_there_valid_moves check_position pc = Ok b)
  /\ (forall target_key pc,
        exists l, Board.get_possible_move_sources check_position target_key pc
                  = Ok l).
Proof.
  apply (queries_return_on_boards check_position).
  apply (bool_decide_unpack _). vm_compute. exact I.
Defined.
